(** * EventTemplates: event hubs with RAII subscriptions and the timed dispatcher

    A shallow embedding of [EventTemplate.h] (CSimpleEvent, CGlobalEvent,
    CEvent, CEventSafe) and [CTimedEvent.h] (delay, CTimedEvent).

    Conventions.
    - [int] and [unsigned int] are [w]-bit integers carried in [Z]; the
      conversions between them are written out in [IntTypes].
    - A [std::function<void(Args...)>] is an [option Cb]: [None] is the empty
      function object, [Some f] holds the callable [f].  Callables are opaque:
      an invocation is recorded as the pair [(f, args)] in a call log, and a
      callable neither throws nor re-enters the hub.
    - Calling an empty [std::function] throws [std::bad_function_call]; the
      hubs never catch it, so it ends the enclosing [trigger]. *)

From Stdlib Require Import ZArith List Bool Lia.
From stdpp Require Import base gmap.
Import ListNotations.
Local Open Scope Z_scope.

(** ** Machine integers *)

Module IntTypes.

Definition INT_MAX (w : Z) : Z := 2 ^ (w - 1) - 1.
Definition INT_MIN (w : Z) : Z := - 2 ^ (w - 1).
Definition UINT_MAX (w : Z) : Z := 2 ^ w - 1.

(** Conversion of an integer value to [unsigned int]: reduction modulo 2^w. *)
Definition to_unsigned (w z : Z) : Z := z mod 2 ^ w.

(** Conversion of an integer value to [int]: the unique value congruent
    modulo 2^w that lies in the range of [int]. *)
Definition to_int (w z : Z) : Z :=
  let u := z mod 2 ^ w in
  if u <=? INT_MAX w then u else u - 2 ^ w.

Lemma pow2_split w : 0 < w -> 2 ^ w = 2 * 2 ^ (w - 1).
Proof.
  intros Hw. replace w with (Z.succ (w - 1)) at 1 by lia.
  rewrite Z.pow_succ_r by lia. reflexivity.
Qed.

Lemma pow2_pos w : 0 <= w -> 0 < 2 ^ w.
Proof. intros Hw. apply Z.pow_pos_nonneg; lia. Qed.

Lemma to_unsigned_range w z : 0 <= w -> 0 <= to_unsigned w z <= UINT_MAX w.
Proof.
  intros Hw. unfold to_unsigned, UINT_MAX.
  pose proof (pow2_pos w Hw) as Hp.
  pose proof (Z.mod_pos_bound z (2 ^ w) Hp). lia.
Qed.

Lemma to_unsigned_id w z : 0 <= z <= UINT_MAX w -> to_unsigned w z = z.
Proof.
  intros Hz. unfold to_unsigned, UINT_MAX in *. apply Z.mod_small. lia.
Qed.

Lemma to_int_small w z : 0 <= z <= INT_MAX w -> 0 < w -> to_int w z = z.
Proof.
  intros Hz Hw. unfold to_int.
  assert (Hlt : z < 2 ^ w).
  { unfold INT_MAX in Hz. rewrite (pow2_split w Hw).
    pose proof (pow2_pos (w - 1)). lia. }
  rewrite Z.mod_small by lia.
  destruct (Z.leb_spec z (INT_MAX w)); lia.
Qed.

Lemma to_int_large w z :
  0 < w -> INT_MAX w < z <= UINT_MAX w -> to_int w z = z - 2 ^ w.
Proof.
  intros Hw Hz. unfold to_int.
  assert (H0 : 0 <= z).
  { unfold INT_MAX in Hz. pose proof (pow2_pos (w - 1)). lia. }
  rewrite Z.mod_small by (unfold UINT_MAX in Hz; lia).
  destruct (Z.leb_spec z (INT_MAX w)); lia.
Qed.

Lemma to_int_large_neg w z :
  0 < w -> INT_MAX w < z <= UINT_MAX w -> to_int w z < 0.
Proof.
  intros Hw Hz. rewrite to_int_large by assumption.
  unfold UINT_MAX in Hz. lia.
Qed.

End IntTypes.

(** ** [delay] and the sleeping primitive (CTimedEvent.h, lines 9-17) *)

Module Delay.

Record timespec := mkTimespec { tv_sec : Z; tv_nsec : Z }.

Definition NS_PER_SEC : Z := 1000000000.

Definition timespec_ns (ts : timespec) : Z := tv_sec ts * NS_PER_SEC + tv_nsec ts.

Definition timespec_of_ns (n : Z) : timespec :=
  {| tv_sec := n / NS_PER_SEC; tv_nsec := n mod NS_PER_SEC |}.

Definition timespec_valid (ts : timespec) : bool :=
  (0 <=? tv_sec ts) && (0 <=? tv_nsec ts) && (tv_nsec ts <? NS_PER_SEC).

Inductive nanosleep_result :=
| Slept                          (* returns 0 *)
| Interrupted (rem : timespec)   (* returns -1, errno = EINTR, rem written *)
| Invalid.                       (* returns -1, errno = EINVAL *)

(** One call [nanosleep(&req, &rem)].  The environment is the optional
    signal that arrives [t] nanoseconds into the sleep.  The second component
    is the time that passed during the call. *)
Definition nanosleep (req : timespec) (signal : option Z) : nanosleep_result * Z :=
  if negb (timespec_valid req) then (Invalid, 0)
  else match signal with
       | Some t =>
           if (0 <=? t) && (t <? timespec_ns req)
           then (Interrupted (timespec_of_ns (timespec_ns req - t)), t)
           else (Slept, timespec_ns req)
       | None => (Slept, timespec_ns req)
       end.

(** [while (nanosleep(&requested, &requested) == -1 && errno == EINTR);]
    run against the finite list of signals that arrive; returns the total
    time that passed. *)
Fixpoint sleep_loop (requested : timespec) (signals : list Z) (elapsed : Z) : Z :=
  match signals with
  | [] => elapsed + snd (nanosleep requested None)
  | t :: rest =>
      match nanosleep requested (Some t) with
      | (Interrupted rem, dt) => sleep_loop rem rest (elapsed + dt)
      | (_, dt) => elapsed + dt
      end
  end.

(** [int delay(int nMs)]: the return code and the nanoseconds spent. *)
Definition delay (nMs : Z) (signals : list Z) : Z * Z :=
  if nMs <? 0 then (-1, 0)
  else
    let requested := {| tv_sec := Z.quot nMs 1000;
                        tv_nsec := Z.rem nMs 1000 * 1000000 |} in
    (0, sleep_loop requested signals 0).

Lemma timespec_of_ns_valid n : 0 <= n -> timespec_valid (timespec_of_ns n) = true.
Proof.
  intros Hn. unfold timespec_valid, timespec_of_ns, NS_PER_SEC. simpl.
  pose proof (Z.mod_pos_bound n 1000000000 ltac:(lia)).
  pose proof (Z.div_pos n 1000000000 Hn ltac:(lia)).
  rewrite !andb_true_iff, !Z.leb_le, Z.ltb_lt. lia.
Qed.

Lemma timespec_ns_of_ns n : timespec_ns (timespec_of_ns n) = n.
Proof.
  unfold timespec_ns, timespec_of_ns, NS_PER_SEC. simpl.
  pose proof (Z.div_mod n 1000000000 ltac:(lia)). lia.
Qed.

(** Retry-on-interrupt: whatever signals arrive, the loop sleeps the whole
    requested interval. *)
Lemma sleep_loop_total signals :
  forall requested elapsed,
    timespec_valid requested = true ->
    sleep_loop requested signals elapsed = elapsed + timespec_ns requested.
Proof.
  induction signals as [|t rest IH]; intros requested elapsed Hv; simpl.
  - unfold nanosleep. rewrite Hv. reflexivity.
  - unfold nanosleep. rewrite Hv. simpl.
    destruct ((0 <=? t) && (t <? timespec_ns requested)) eqn:Ht.
    + apply andb_true_iff in Ht as [H0 H1].
      apply Z.leb_le in H0. apply Z.ltb_lt in H1.
      rewrite IH by (apply timespec_of_ns_valid; lia).
      rewrite timespec_ns_of_ns. lia.
    + reflexivity.
Qed.

Lemma delay_nonneg nMs signals :
  0 <= nMs -> delay nMs signals = (0, nMs * 1000000).
Proof.
  intros Hn. unfold delay.
  destruct (Z.ltb_spec nMs 0); [lia|].
  rewrite sleep_loop_total.
  - unfold timespec_ns, NS_PER_SEC. simpl.
    rewrite Z.quot_div_nonneg, Z.rem_mod_nonneg by lia.
    pose proof (Z.div_mod nMs 1000 ltac:(lia)). f_equal. lia.
  - unfold timespec_valid, NS_PER_SEC. simpl.
    rewrite Z.quot_div_nonneg, Z.rem_mod_nonneg by lia.
    pose proof (Z.mod_pos_bound nMs 1000 ltac:(lia)).
    pose proof (Z.div_pos nMs 1000 Hn ltac:(lia)).
    rewrite !andb_true_iff, !Z.leb_le, Z.ltb_lt. lia.
Qed.

Lemma delay_negative nMs signals : nMs < 0 -> delay nMs signals = (-1, 0).
Proof.
  intros Hn. unfold delay. destruct (Z.ltb_spec nMs 0); [reflexivity | lia].
Qed.

End Delay.

(** ** Invoking a list of function objects *)

Module Invoke.
Section Invoke.
Context {Args Cb : Type}.

Inductive outcome := Returned | Threw_bad_function_call.

(** [for (cb : cbs) cb(args...);] without a null check. *)
Fixpoint invoke_each (cbs : list (option Cb)) (args : Args)
  : list (Cb * Args) * outcome :=
  match cbs with
  | [] => ([], Returned)
  | None :: _ => ([], Threw_bad_function_call)
  | Some f :: rest =>
      let '(calls, o) := invoke_each rest args in ((f, args) :: calls, o)
  end.

(** [for (cb : cbs) if (cb) cb(args...);] *)
Fixpoint invoke_nonnull (cbs : list (option Cb)) (args : Args)
  : list (Cb * Args) :=
  match cbs with
  | [] => []
  | None :: rest => invoke_nonnull rest args
  | Some f :: rest => (f, args) :: invoke_nonnull rest args
  end.

Lemma invoke_nonnull_app cbs1 cbs2 args :
  invoke_nonnull (cbs1 ++ cbs2) args
  = (invoke_nonnull cbs1 args ++ invoke_nonnull cbs2 args)%list.
Proof.
  induction cbs1 as [|[f|] rest IH]; simpl; [reflexivity | | assumption].
  now rewrite IH.
Qed.

Lemma invoke_each_all_some (fs : list Cb) args :
  invoke_each (map Some fs) args = (map (fun f => (f, args)) fs, Returned).
Proof.
  induction fs as [|f fs IH]; simpl; [reflexivity|]. now rewrite IH.
Qed.

End Invoke.
Arguments outcome : clear implicits.
End Invoke.

(** ** CTimedEvent (CTimedEvent.h, lines 19-76) *)

Module CTimedEvent.
Import IntTypes Delay Invoke.
Section CTimedEvent.
Context {Args Cb : Type}.
Variable w : Z.   (* width of int and unsigned int *)

Record TimedCallback := mkTimed { func : option Cb; delay_ms : Z }.

Record t := mk {
  immediate_callbacks_ : list (option Cb);
  delayed_callbacks_ : list TimedCallback
}.

Definition empty : t := {| immediate_callbacks_ := []; delayed_callbacks_ := [] |}.

(** The closure handed to [std::thread]: it captures [bound_func]
    (callback and arguments) and [delay_ms]. *)
Record Thread := mkThread { bound_func : Cb * Args; captured_delay_ms : Z }.

(** What a detached thread does when it runs: how long it waited and which
    call it made.  The value returned by [delay] is dropped, as in the body
    [delay(delay_ms); bound_func();]. *)
Record ThreadRun := mkRun { waited_ns : Z; fired : Cb * Args }.

Definition launch_delayed (callback : Cb) (delay_ms : Z) (args : Args) : Thread :=
  {| bound_func := (callback, args); captured_delay_ms := delay_ms |}.

Definition run_thread (signals : list Z) (th : Thread) : ThreadRun :=
  let '(_, ns) := delay (to_int w (captured_delay_ms th)) signals in
  {| waited_ns := ns; fired := bound_func th |}.

Definition subscribe (callback : option Cb) (e : t) : t :=
  {| immediate_callbacks_ := immediate_callbacks_ e ++ [callback];
     delayed_callbacks_ := delayed_callbacks_ e |}.

(** The parameter has type [unsigned int]: whatever integer the caller
    passes is converted on the way in. *)
Definition subscribe_with_delay (callback : option Cb) (delay_ms : Z) (e : t) : t :=
  {| immediate_callbacks_ := immediate_callbacks_ e;
     delayed_callbacks_ :=
       delayed_callbacks_ e ++ [ {| func := callback;
                                    delay_ms := to_unsigned w delay_ms |} ] |}.

Fixpoint spawn_all (tcbs : list TimedCallback) (args : Args) : list Thread :=
  match tcbs with
  | [] => []
  | tcb :: rest =>
      match func tcb with
      | Some f => launch_delayed f (delay_ms tcb) args :: spawn_all rest args
      | None => spawn_all rest args
      end
  end.

(** [trigger]: the calls made on the triggering thread, and the threads it
    detaches. *)
Definition trigger (args : Args) (e : t) : list (Cb * Args) * list Thread :=
  (invoke_nonnull (immediate_callbacks_ e) args,
   spawn_all (delayed_callbacks_ e) args).

Lemma spawn_all_app tcbs1 tcbs2 args :
  spawn_all (tcbs1 ++ tcbs2) args
  = (spawn_all tcbs1 args ++ spawn_all tcbs2 args)%list.
Proof.
  induction tcbs1 as [|tcb rest IH]; simpl; [reflexivity|].
  destruct (func tcb); [now rewrite IH | assumption].
Qed.

Lemma trigger_subscribe_with_delay f d args e :
  trigger args (subscribe_with_delay (Some f) d e)
  = (fst (trigger args e),
     (snd (trigger args e) ++ [launch_delayed f (to_unsigned w d) args])%list).
Proof.
  unfold trigger, subscribe_with_delay. simpl.
  rewrite spawn_all_app. reflexivity.
Qed.

Lemma trigger_subscribe f args e :
  trigger args (subscribe (Some f) e)
  = ((fst (trigger args e) ++ [(f, args)])%list, snd (trigger args e)).
Proof.
  unfold trigger, subscribe. simpl.
  rewrite invoke_nonnull_app. reflexivity.
Qed.

End CTimedEvent.
Arguments TimedCallback : clear implicits.
Arguments t : clear implicits.
Arguments Thread : clear implicits.
Arguments ThreadRun : clear implicits.
End CTimedEvent.

(** ** CSimpleEvent and CGlobalEvent (EventTemplate.h, lines 19-63) *)

Module CSimpleEvent.
Import Invoke.
Section CSimpleEvent.
Context {Args Cb : Type}.

Record t := mk { callbacks_ : list (option Cb) }.

Definition empty : t := {| callbacks_ := [] |}.

Definition subscribe (callback : option Cb) (e : t) : t :=
  {| callbacks_ := callbacks_ e ++ [callback] |}.

Definition trigger (args : Args) (e : t) : list (Cb * Args) * outcome :=
  invoke_each (callbacks_ e) args.

End CSimpleEvent.
Arguments t : clear implicits.
End CSimpleEvent.

Module CGlobalEvent.
Import Invoke.
Section CGlobalEvent.
Context {Args Cb : Type}.

Record t := mk { callbacks_ : list (option Cb) }.

Definition empty : t := {| callbacks_ := [] |}.

Definition subscribe (callback : option Cb) (e : t) : t :=
  {| callbacks_ := callbacks_ e ++ [callback] |}.

Definition trigger (args : Args) (e : t) : list (Cb * Args) :=
  invoke_nonnull (callbacks_ e) args.

End CGlobalEvent.
Arguments t : clear implicits.
End CGlobalEvent.

(** ** Callback entries, shared by CEvent and CEventSafe

    Both classes declare the same nested [struct CallbackEntry] and the same
    [unsubscribe]; CEventSafe only adds the mutex. *)

Module Entry.
Section Entry.
Context {Cb : Type}.

Record CallbackEntry := mkEntry {
  id : Z;
  callback : option Cb;
  active : bool
}.

(** [it = find_if(begin, end, entry.id == id); if (it != end) it->active = false;]
    [None] when no entry carries the id. *)
Fixpoint mark_inactive (i : Z) (es : list CallbackEntry) : option (list CallbackEntry) :=
  match es with
  | [] => None
  | e :: rest =>
      if id e =? i
      then Some ({| id := id e; callback := callback e; active := false |} :: rest)
      else option_map (cons e) (mark_inactive i rest)
  end.

(** [erase(remove_if(begin, end, !entry.active), end)] *)
Definition remove_inactive (es : list CallbackEntry) : list CallbackEntry :=
  List.filter active es.

Definition count_inactive (es : list CallbackEntry) : nat :=
  length (List.filter (fun e => negb (active e)) es).

(** The entry that carries id [i] is registered and active. *)
Definition active_id (i : Z) (es : list CallbackEntry) : Prop :=
  exists e, In e es /\ id e = i /\ active e = true.

(** No active entry carries id [i]. *)
Definition dead_id (i : Z) (es : list CallbackEntry) : Prop :=
  forall e, In e es -> id e = i -> active e = false.

End Entry.
Arguments CallbackEntry : clear implicits.
End Entry.

(** ** CEvent (EventTemplate.h, lines 66-157): the hub without a lock *)

Module CEvent.
Import IntTypes Invoke Entry.
Section CEvent.
Context {Args Cb : Type}.
Variable w : Z.

Record t := mk {
  needsCleanup_ : bool;
  nextId_ : Z;
  callbacks_ : list (CallbackEntry Cb)
}.

Definition empty : t :=
  {| needsCleanup_ := false; nextId_ := 0; callbacks_ := [] |}.

(** [int id = nextId_++] overflows at [INT_MAX]; signed overflow has no
    defined behaviour, so [subscribe] has no result there. *)
Definition subscribe (callback : option Cb) (e : t) : option (t * Z) :=
  if nextId_ e <? INT_MAX w then
    let id := nextId_ e in
    Some ({| needsCleanup_ := needsCleanup_ e;
             nextId_ := nextId_ e + 1;
             callbacks_ := callbacks_ e ++ [mkEntry id callback true] |}, id)
  else None.

Definition cleanup (e : t) : t :=
  if needsCleanup_ e
  then {| needsCleanup_ := false; nextId_ := nextId_ e;
          callbacks_ := remove_inactive (callbacks_ e) |}
  else e.

(** Every stored entry is called, with no test of [active] or of the
    function object. *)
Definition trigger (args : Args) (e : t) : t * (list (Cb * Args) * outcome) :=
  let e' := cleanup e in
  (e', invoke_each (map callback (callbacks_ e')) args).

Definition unsubscribe (i : Z) (e : t) : t :=
  match mark_inactive i (callbacks_ e) with
  | Some es => {| needsCleanup_ := true; nextId_ := nextId_ e; callbacks_ := es |}
  | None => e
  end.

End CEvent.
Arguments t : clear implicits.
End CEvent.

(** ** CEventSafe (EventTemplate.h, lines 163-263): the hub

    The mutex serialises [subscribe], [unsubscribe] and the first half of
    [trigger]; each of them is one atomic state transformer here.  The
    snapshot [activeEntries] holds shared pointers to the entries; callables
    being opaque, an entry cannot change between the snapshot and its call. *)

Module CEventSafe.
Import IntTypes Invoke Entry.
Section CEventSafe.
Context {Args Cb : Type}.
Variable w : Z.

Record t := mk {
  needsCleanup_ : bool;
  nextId_ : Z;
  callbacks_ : list (CallbackEntry Cb)
}.

Definition empty : t :=
  {| needsCleanup_ := false; nextId_ := 0; callbacks_ := [] |}.

(** [int id = nextId_++] overflows at [INT_MAX]; signed overflow has no
    defined behaviour, so [subscribe] has no result there.  The second
    component is the id bound into the returned Subscription. *)
Definition subscribe (callback : option Cb) (e : t) : option (t * Z) :=
  if nextId_ e <? INT_MAX w then
    let id := nextId_ e in
    Some ({| needsCleanup_ := needsCleanup_ e;
             nextId_ := nextId_ e + 1;
             callbacks_ := callbacks_ e ++ [mkEntry id callback true] |}, id)
  else None.

Definition cleanup (e : t) : t :=
  if needsCleanup_ e
  then {| needsCleanup_ := false; nextId_ := nextId_ e;
          callbacks_ := remove_inactive (callbacks_ e) |}
  else e.

(** The part of [trigger] under the lock: the hub after the cleanup pass and
    the snapshot [activeEntries]. *)
Definition trigger_locked (e : t) : t * list (CallbackEntry Cb) :=
  let e' := cleanup e in
  (e', List.filter active (callbacks_ e')).

(** [for (entry : activeEntries) entry->callback(args...);] after the lock
    is released: no test of the function object. *)
Definition trigger (args : Args) (e : t) : t * (list (Cb * Args) * outcome) :=
  let '(e', activeEntries) := trigger_locked e in
  (e', invoke_each (map callback activeEntries) args).

Definition unsubscribe (i : Z) (e : t) : t :=
  match mark_inactive i (callbacks_ e) with
  | Some es => {| needsCleanup_ := true; nextId_ := nextId_ e; callbacks_ := es |}
  | None => e
  end.

End CEventSafe.
Arguments t : clear implicits.
End CEventSafe.

(** ** Facts about entry lists *)

Module EntryFacts.
Import Entry.
Section EntryFacts.
Context {Cb : Type}.
Implicit Types (es : list (CallbackEntry Cb)) (x : CallbackEntry Cb) (i : Z).

Lemma mark_inactive_ids i es es' :
  mark_inactive i es = Some es' -> map id es' = map id es.
Proof.
  revert es'. induction es as [|e rest IH]; intros es' H; simpl in H; [discriminate|].
  destruct (id e =? i).
  - injection H as <-. reflexivity.
  - destruct (mark_inactive i rest) as [r|]; [|discriminate].
    injection H as <-. simpl. f_equal. now apply IH.
Qed.

Lemma mark_inactive_callbacks i es es' :
  mark_inactive i es = Some es' -> map callback es' = map callback es.
Proof.
  revert es'. induction es as [|e rest IH]; intros es' H; simpl in H; [discriminate|].
  destruct (id e =? i).
  - injection H as <-. reflexivity.
  - destruct (mark_inactive i rest) as [r|]; [|discriminate].
    injection H as <-. simpl. f_equal. now apply IH.
Qed.

Lemma mark_inactive_None i es :
  mark_inactive i es = None <-> ~ In i (map id es).
Proof.
  induction es as [|e rest IH]; simpl.
  - tauto.
  - destruct (Z.eqb_spec (id e) i) as [E|E].
    + split; [discriminate | tauto].
    + destruct (mark_inactive i rest); simpl; split; intros H.
      * discriminate.
      * exfalso. destruct IH as [_ IH]. discriminate IH. tauto.
      * intros [?|?]; [congruence | tauto].
      * reflexivity.
Qed.

(** Entries with another id are neither changed, added nor dropped. *)
Lemma mark_inactive_other i es es' x :
  mark_inactive i es = Some es' -> id x <> i -> (In x es' <-> In x es).
Proof.
  revert es'. induction es as [|e rest IH]; intros es' H Hx; simpl in H; [discriminate|].
  destruct (Z.eqb_spec (id e) i) as [E|E].
  - injection H as <-. simpl. split; intros [<-|?]; auto; simpl in *; congruence.
  - destruct (mark_inactive i rest) as [r|]; [|discriminate].
    injection H as <-. simpl. specialize (IH r eq_refl Hx). tauto.
Qed.

(** The entry that carries the id is now inactive. *)
Lemma mark_inactive_marks i es es' :
  mark_inactive i es = Some es' ->
  exists x, In x es' /\ id x = i /\ active x = false.
Proof.
  revert es'. induction es as [|e rest IH]; intros es' H; simpl in H; [discriminate|].
  destruct (Z.eqb_spec (id e) i) as [E|E].
  - injection H as <-. eexists. split; [left; reflexivity|]. simpl. auto.
  - destruct (mark_inactive i rest) as [r|]; [|discriminate].
    injection H as <-. destruct (IH r eq_refl) as (x & ? & ? & ?).
    exists x. simpl. auto.
Qed.

Lemma mark_inactive_dead i es es' :
  List.NoDup (map id es) -> mark_inactive i es = Some es' -> dead_id i es'.
Proof.
  revert es'. induction es as [|e rest IH]; intros es' Hnd H; simpl in H; [discriminate|].
  inversion Hnd as [|? ? Hnot Hnd']; subst.
  destruct (Z.eqb_spec (id e) i) as [E|E].
  - injection H as <-. intros x [<-|Hin] Hid; [reflexivity|].
    exfalso. apply Hnot. rewrite E, <- Hid. now apply in_map.
  - destruct (mark_inactive i rest) as [r|]; [|discriminate].
    injection H as <-. intros x [<-|Hin] Hid; [congruence|].
    now apply (IH r Hnd' eq_refl).
Qed.

(** After the mark, the active entries are the old active entries without
    the one that carries the id. *)
Lemma mark_inactive_filter i es es' :
  List.NoDup (map id es) -> mark_inactive i es = Some es' ->
  List.filter active es' = List.filter (fun x => active x && negb (id x =? i)) es.
Proof.
  revert es'. induction es as [|e rest IH]; intros es' Hnd H; simpl in H; [discriminate|].
  inversion Hnd as [|? ? Hnot Hnd']; subst.
  destruct (Z.eqb_spec (id e) i) as [E|E].
  - injection H as <-. simpl.
    destruct (Z.eqb_spec (id e) i); [|contradiction].
    rewrite andb_false_r. apply List.filter_ext_in.
    intros x Hin. destruct (Z.eqb_spec (id x) i) as [Ex|Ex].
    + exfalso. apply Hnot. rewrite E, <- Ex. now apply in_map.
    + now rewrite andb_true_r.
  - destruct (mark_inactive i rest) as [r|]; [|discriminate].
    injection H as <-. simpl.
    destruct (Z.eqb_spec (id e) i); [contradiction|].
    rewrite andb_true_r, (IH r Hnd' eq_refl). reflexivity.
Qed.

(** Marking an entry that is already inactive changes nothing. *)
Lemma mark_inactive_dead_fixed i es es' :
  dead_id i es -> mark_inactive i es = Some es' -> es' = es.
Proof.
  revert es'. induction es as [|e rest IH]; intros es' Hd H; simpl in H; [discriminate|].
  destruct (Z.eqb_spec (id e) i) as [E|E].
  - injection H as <-. f_equal.
    assert (Ha : active e = false) by (apply Hd; simpl; auto).
    destruct e; simpl in *; congruence.
  - destruct (mark_inactive i rest) as [r|]; [|discriminate].
    injection H as <-. f_equal. apply IH; [|reflexivity].
    intros x Hin. apply Hd. now right.
Qed.

Lemma mark_inactive_twice i es es' :
  mark_inactive i es = Some es' -> mark_inactive i es' = Some es'.
Proof.
  revert es'. induction es as [|e rest IH]; intros es' H; simpl in H; [discriminate|].
  destruct (Z.eqb_spec (id e) i) as [E|E].
  - injection H as <-. simpl. destruct (Z.eqb_spec (id e) i); [reflexivity | contradiction].
  - destruct (mark_inactive i rest) as [r|]; [|discriminate].
    injection H as <-. simpl. destruct (Z.eqb_spec (id e) i); [contradiction|].
    now rewrite (IH r eq_refl).
Qed.

Lemma remove_inactive_all_active es :
  Forall (fun x => active x = true) (remove_inactive es).
Proof.
  apply List.Forall_forall. intros x Hin. now apply List.filter_In in Hin.
Qed.

Lemma count_inactive_all_active es :
  Forall (fun x => active x = true) es -> count_inactive es = 0%nat.
Proof.
  unfold count_inactive. induction 1 as [|x l Hx _ IH]; simpl; [reflexivity|].
  now rewrite Hx.
Qed.

Lemma count_inactive_zero es :
  count_inactive es = 0%nat -> Forall (fun x => active x = true) es.
Proof.
  unfold count_inactive. induction es as [|x l IH]; simpl; intros H; [constructor|].
  destruct (active x) eqn:Ea; simpl in H; [|discriminate].
  constructor; auto.
Qed.

Lemma remove_inactive_all_dead es :
  (forall x, In x es -> active x = false) -> remove_inactive es = [].
Proof.
  induction es as [|e rest IH]; intros H; simpl; [reflexivity|].
  rewrite (H e) by (left; reflexivity). apply IH. intros x Hin. apply H. now right.
Qed.

Lemma filter_active_id es :
  Forall (fun x => active x = true) es -> List.filter active es = es.
Proof.
  induction 1 as [|x l Hx _ IH]; simpl; [reflexivity|]. now rewrite Hx, IH.
Qed.

Lemma filter_active_and (p : CallbackEntry Cb -> bool) es :
  List.filter (fun x => active x && p x) es = List.filter p (List.filter active es).
Proof.
  induction es as [|x l IH]; simpl; [reflexivity|].
  destruct (active x); simpl; [|assumption].
  destruct (p x); [f_equal|]; assumption.
Qed.

Lemma filter_unknown_id i es :
  ~ In i (map id es) ->
  List.filter (fun x => negb (id x =? i)) (List.filter active es)
  = List.filter active es.
Proof.
  induction es as [|x l IH]; simpl; intros H; [reflexivity|].
  destruct (active x); simpl.
  - destruct (Z.eqb_spec (id x) i); [tauto|]. simpl. f_equal. tauto.
  - tauto.
Qed.

Lemma NoDup_map_filter (p : CallbackEntry Cb -> bool) es :
  List.NoDup (map id es) -> List.NoDup (map id (List.filter p es)).
Proof.
  induction es as [|e rest IH]; simpl; intros H; [constructor|].
  inversion H as [|? ? Hnot Hnd]; subst.
  destruct (p e); simpl; [constructor|]; auto.
  intros Hin. apply Hnot. apply in_map_iff in Hin as (x & Hx & Hin).
  apply List.filter_In in Hin as [Hin _]. rewrite <- Hx. now apply in_map.
Qed.

End EntryFacts.
End EntryFacts.

(** ** The hub invariant of CEventSafe *)

Module CEventSafeFacts.
Import IntTypes Invoke Entry EntryFacts CEventSafe.
Section CEventSafeFacts.
Context {Args Cb : Type}.
Variable w : Z.
Implicit Types (e : CEventSafe.t Cb) (i : Z) (args : Args).

(** What every hub built by [subscribe], [unsubscribe] and [trigger]
    satisfies: a tombstone is always announced by the cleanup flag, ids are
    unique and below the counter, and the counter is a valid [int]. *)
Record hub_inv e : Prop := {
  inv_cleanup :
    (exists x, In x (callbacks_ e) /\ active x = false) -> needsCleanup_ e = true;
  inv_bounded : forall x, In x (callbacks_ e) -> 0 <= id x < nextId_ e;
  inv_unique : List.NoDup (map id (callbacks_ e));
  inv_next : 0 <= nextId_ e <= INT_MAX w
}.

Lemma hub_inv_empty : 0 < w -> hub_inv (@empty Cb).
Proof.
  intros Hw. split; simpl.
  - intros (x & [] & _).
  - intros x [].
  - constructor.
  - unfold INT_MAX. pose proof (pow2_pos (w - 1)). lia.
Qed.

Lemma subscribe_spec cb e e' i :
  subscribe w cb e = Some (e', i) ->
  i = nextId_ e /\ nextId_ e < INT_MAX w /\
  e' = {| needsCleanup_ := needsCleanup_ e; nextId_ := nextId_ e + 1;
          callbacks_ := callbacks_ e ++ [mkEntry (nextId_ e) cb true] |}.
Proof.
  unfold subscribe. destruct (Z.ltb_spec (nextId_ e) (INT_MAX w)); [|discriminate].
  intros H'. injection H' as <- <-. auto.
Qed.

Lemma subscribe_inv cb e e' i :
  hub_inv e -> subscribe w cb e = Some (e', i) -> hub_inv e'.
Proof.
  intros [Hc Hb Hu Hn] H. apply subscribe_spec in H as (-> & Hlt & ->).
  split; simpl.
  - intros (x & Hin & Hx). apply in_app_iff in Hin as [Hin|[<-|[]]].
    + apply Hc. eauto.
    + discriminate.
  - intros x Hin. apply in_app_iff in Hin as [Hin|[<-|[]]].
    + specialize (Hb x Hin). lia.
    + simpl. lia.
  - rewrite map_app. simpl.
    apply List.NoDup_rev in Hu. rewrite <- (rev_involutive (map id (callbacks_ e) ++ _)).
    apply List.NoDup_rev. rewrite rev_app_distr. simpl. constructor; [|assumption].
    rewrite <- in_rev. intros Hin. apply in_map_iff in Hin as (x & Hx & Hin).
    specialize (Hb x Hin). lia.
  - lia.
Qed.

Lemma subscribe_defined cb e :
  nextId_ e < INT_MAX w -> exists e', subscribe w cb e = Some (e', nextId_ e).
Proof.
  intros H. unfold subscribe.
  destruct (Z.ltb_spec (nextId_ e) (INT_MAX w)); [eauto | lia].
Qed.

Lemma unsubscribe_inv i e : hub_inv e -> hub_inv (unsubscribe i e).
Proof.
  intros [Hc Hb Hu Hn]. unfold unsubscribe.
  destruct (mark_inactive i (callbacks_ e)) as [es|] eqn:Hm; [|split; assumption].
  split; simpl.
  - reflexivity.
  - intros x Hin. apply (in_map id) in Hin.
    rewrite (mark_inactive_ids _ _ _ Hm) in Hin.
    apply in_map_iff in Hin as (y & Hy & Hin). rewrite <- Hy. now apply Hb.
  - now rewrite (mark_inactive_ids _ _ _ Hm).
  - assumption.
Qed.

Lemma cleanup_hub_inv e : hub_inv e -> hub_inv (cleanup e).
Proof.
  intros [Hc Hb Hu Hn]. unfold cleanup.
  destruct (needsCleanup_ e) eqn:En;
    [|split; try assumption; intros H; apply Hc in H; discriminate].
  split; simpl.
  - intros (x & Hin & Hx). apply List.filter_In in Hin as [_ Hin]. congruence.
  - intros x Hin. apply List.filter_In in Hin as [Hin _]. now apply Hb.
  - now apply NoDup_map_filter.
  - assumption.
Qed.

(** Under the invariant the cleanup pass leaves no tombstone behind. *)
Lemma cleanup_all_active e :
  hub_inv e -> Forall (fun x => active x = true) (callbacks_ (cleanup e)).
Proof.
  intros [Hc _ _ _]. unfold cleanup. destruct (needsCleanup_ e) eqn:En; simpl.
  - apply remove_inactive_all_active.
  - apply List.Forall_forall. intros x Hin.
    destruct (active x) eqn:Ea; [reflexivity|].
    assert (false = true) by (apply Hc; eauto). discriminate.
Qed.

Lemma trigger_state args e : fst (trigger args e) = cleanup e.
Proof. reflexivity. Qed.

Lemma trigger_calls args e :
  snd (trigger args e) = invoke_each (map callback (snd (trigger_locked e))) args.
Proof. reflexivity. Qed.

(** The snapshot is the list of active entries, in stored order. *)
Lemma trigger_locked_snapshot e :
  snd (trigger_locked e) = List.filter active (callbacks_ e).
Proof.
  unfold trigger_locked, cleanup. simpl.
  destruct (needsCleanup_ e); simpl; [|reflexivity].
  unfold remove_inactive. induction (callbacks_ e) as [|x l IH]; simpl; [reflexivity|].
  destruct (active x) eqn:Ea; simpl; [rewrite Ea; f_equal|]; assumption.
Qed.

Lemma unsubscribe_unknown i e :
  ~ In i (map id (callbacks_ e)) -> unsubscribe i e = e.
Proof.
  intros H. unfold unsubscribe.
  now rewrite (proj2 (mark_inactive_None i (callbacks_ e)) H).
Qed.

Lemma unsubscribe_idempotent i e :
  unsubscribe i (unsubscribe i e) = unsubscribe i e.
Proof.
  unfold unsubscribe at 2 3.
  destruct (mark_inactive i (callbacks_ e)) as [es|] eqn:Hm.
  - unfold unsubscribe. simpl. now rewrite (mark_inactive_twice _ _ _ Hm).
  - unfold unsubscribe. now rewrite Hm.
Qed.

Lemma unsubscribe_tombstoned i e :
  hub_inv e -> dead_id i (callbacks_ e) -> unsubscribe i e = e.
Proof.
  intros [Hc _ _ _] Hd. unfold unsubscribe.
  destruct (mark_inactive i (callbacks_ e)) as [es|] eqn:Hm; [|reflexivity].
  pose proof (mark_inactive_dead_fixed _ _ _ Hd Hm) as ->.
  destruct (mark_inactive_marks _ _ _ Hm) as (x & Hin & _ & Hx).
  rewrite <- (Hc (ex_intro _ x (conj Hin Hx))). now destruct e.
Qed.

Lemma unsubscribe_dead i e :
  hub_inv e -> dead_id i (callbacks_ (unsubscribe i e)).
Proof.
  intros [_ _ Hu _]. unfold unsubscribe.
  destruct (mark_inactive i (callbacks_ e)) as [es|] eqn:Hm; simpl.
  - eapply mark_inactive_dead; eassumption.
  - apply mark_inactive_None in Hm. intros x Hin Hx. exfalso. apply Hm.
    rewrite <- Hx. now apply in_map.
Qed.

Lemma unsubscribe_snapshot i e :
  hub_inv e ->
  snd (trigger_locked (unsubscribe i e))
  = List.filter (fun x => negb (id x =? i)) (snd (trigger_locked e)).
Proof.
  intros [_ _ Hu _]. rewrite !trigger_locked_snapshot. unfold unsubscribe.
  destruct (mark_inactive i (callbacks_ e)) as [es|] eqn:Hm; simpl.
  - rewrite (mark_inactive_filter _ _ _ Hu Hm). apply filter_active_and.
  - apply mark_inactive_None in Hm. symmetry. now apply filter_unknown_id.
Qed.

End CEventSafeFacts.
End CEventSafeFacts.

(** ** Hubs and Subscription handles as objects

    Hubs live behind [std::shared_ptr]; a Subscription holds a
    [std::weak_ptr] to its hub and an id.  The store below keeps the live
    hubs by address and the live Subscription objects by name, so that
    [event_.lock()], [this != &other] and the order of destructor calls can
    be followed as written in lines 168-200. *)

Module World.
Import IntTypes Invoke Entry CEventSafe.
Section World.
Context {Args Cb : Type}.
Variable w : Z.

(** [event_] is [None] for an empty weak pointer, [Some l] when it was
    taken from the hub at address [l] (which may have died since). *)
Record Subscription := mkSub { event_ : option nat; id_ : Z }.

#[global] Instance Subscription_eq_dec : EqDecision Subscription.
Proof. solve_decision. Defined.

Record t := mk {
  hubs : gmap nat (CEventSafe.t Cb);
  next_hub : nat;                       (* addresses are never reused *)
  subs : gmap nat Subscription
}.

Definition init : t := {| hubs := ∅; next_hub := 0; subs := ∅ |}.

(** What is left in the source of a move: [std::move] empties the weak
    pointer and the body stores the sentinel [-1]. *)
Definition moved_from : Subscription := {| event_ := None; id_ := -1 |}.

(** [~Subscription()]: [if (auto event = event_.lock()) event->unsubscribe(id_);] *)
Definition destructor (s : Subscription) (hs : gmap nat (CEventSafe.t Cb))
  : gmap nat (CEventSafe.t Cb) :=
  match event_ s with
  | Some l =>
      match hs !! l with
      | Some e => <[l := unsubscribe (id_ s) e]> hs
      | None => hs
      end
  | None => hs
  end.

(** [Subscription(Subscription&& other)]: the new object takes [other]'s
    members; [other] is left as [moved_from]. *)
Definition move_construct (v src : nat) (ss : gmap nat Subscription)
  : option (gmap nat Subscription) :=
  match ss !! src, ss !! v with
  | Some other, None => Some (<[v := other]> (<[src := moved_from]> ss))
  | _, _ => None
  end.

(** [operator=(Subscription&& other)]: guarded by [this != &other]; the old
    members of [*this] are overwritten, and no [unsubscribe] is called. *)
Definition move_assign (dst src : nat) (ss : gmap nat Subscription)
  : option (gmap nat Subscription) :=
  match ss !! dst, ss !! src with
  | Some _, Some other =>
      if decide (dst = src) then Some ss
      else Some (<[dst := other]> (<[src := moved_from]> ss))
  | _, _ => None
  end.

Inductive op :=
| MakeHub                                   (* std::make_shared<CEventSafe<Args...>>() *)
| DropHub (l : nat)                         (* the last shared_ptr to the hub is released *)
| Subscribe (l : nat) (cb : option Cb) (v : nat)  (* Subscription v = hub->subscribe(cb); *)
| MoveConstruct (v src : nat)               (* Subscription v(std::move(src)); *)
| MoveAssign (dst src : nat)                (* dst = std::move(src); *)
| Destroy (v : nat)                         (* v goes out of scope *)
| Trigger (l : nat) (args : Args).          (* hub->trigger(args); *)

(** One statement of a client program.  [None]: the statement names an
    object that does not exist, or [subscribe] overflows the id counter. *)
Definition step (σ : t) (o : op) : option t :=
  match o with
  | MakeHub =>
      Some {| hubs := <[next_hub σ := CEventSafe.empty]> (hubs σ);
              next_hub := S (next_hub σ); subs := subs σ |}
  | DropHub l =>
      match hubs σ !! l with
      | Some _ => Some {| hubs := delete l (hubs σ);
                          next_hub := next_hub σ; subs := subs σ |}
      | None => None
      end
  | Subscribe l cb v =>
      match hubs σ !! l, subs σ !! v with
      | Some e, None =>
          match subscribe w cb e with
          | Some (e', i) =>
              Some {| hubs := <[l := e']> (hubs σ); next_hub := next_hub σ;
                      subs := <[v := {| event_ := Some l; id_ := i |}]> (subs σ) |}
          | None => None
          end
      | _, _ => None
      end
  | MoveConstruct v src =>
      match move_construct v src (subs σ) with
      | Some ss => Some {| hubs := hubs σ; next_hub := next_hub σ; subs := ss |}
      | None => None
      end
  | MoveAssign dst src =>
      match move_assign dst src (subs σ) with
      | Some ss => Some {| hubs := hubs σ; next_hub := next_hub σ; subs := ss |}
      | None => None
      end
  | Destroy v =>
      match subs σ !! v with
      | Some s => Some {| hubs := destructor s (hubs σ); next_hub := next_hub σ;
                          subs := delete v (subs σ) |}
      | None => None
      end
  | Trigger l args =>
      match hubs σ !! l with
      | Some e => Some {| hubs := <[l := fst (trigger args e)]> (hubs σ);
                          next_hub := next_hub σ; subs := subs σ |}
      | None => None
      end
  end.

Fixpoint run (σ : t) (ops : list op) : option t :=
  match ops with
  | [] => Some σ
  | o :: rest =>
      match step σ o with
      | Some σ' => run σ' rest
      | None => None
      end
  end.

(** The handle named [v] owns registration [i] of the hub at [l]. *)
Definition owns (σ : t) (v l : nat) (i : Z) : Prop :=
  subs σ !! v = Some {| event_ := Some l; id_ := i |}.

(** Registration [i] of the hub at [l] is live with callback [cb]. *)
Definition registered (σ : t) (l : nat) (i : Z) (cb : option Cb) : Prop :=
  exists e, hubs σ !! l = Some e /\ In (mkEntry i cb true) (callbacks_ e).

(** The entries a [trigger] on the hub at [l] would snapshot. *)
Definition snapshot (σ : t) (l : nat) : option (list (CallbackEntry Cb)) :=
  match hubs σ !! l with
  | Some e => Some (snd (trigger_locked e))
  | None => None
  end.

End World.
Arguments Subscription : clear implicits.
Arguments t : clear implicits.
Arguments op : clear implicits.
End World.

(** ** Invariants of the object store *)

Module WorldFacts.
Import IntTypes Invoke Entry EntryFacts CEventSafe CEventSafeFacts World.
Section WorldFacts.
Context {Args Cb : Type}.
Variable w : Z.
Hypothesis w_pos : 0 < w.
Implicit Types (σ : World.t Cb) (o : op Args Cb) (e : CEventSafe.t Cb)
  (s : Subscription) (i : Z) (l v : nat) (cb : option Cb).

Local Abbreviation step := (@World.step Args Cb w).
Local Abbreviation run := (@World.run Args Cb w).

(** *** Hub-level preservation *)

Lemma nextId_unsubscribe i e : nextId_ (unsubscribe i e) = nextId_ e.
Proof. unfold unsubscribe. now destruct (mark_inactive i (callbacks_ e)). Qed.

Lemma nextId_cleanup e : nextId_ (cleanup e) = nextId_ e.
Proof. unfold cleanup. now destruct (needsCleanup_ e). Qed.

Lemma live_unsubscribe i j cb e :
  i <> j -> In (mkEntry i cb true) (callbacks_ e) ->
  In (mkEntry i cb true) (callbacks_ (unsubscribe j e)).
Proof.
  intros Hne Hin. unfold unsubscribe.
  destruct (mark_inactive j (callbacks_ e)) as [es|] eqn:Hm; [|assumption].
  simpl. now apply (mark_inactive_other _ _ _ _ Hm).
Qed.

Lemma live_unsubscribe_inv i j cb e :
  In (mkEntry i cb true) (callbacks_ (unsubscribe j e)) ->
  In (mkEntry i cb true) (callbacks_ e).
Proof.
  unfold unsubscribe.
  destruct (mark_inactive j (callbacks_ e)) as [es|] eqn:Hm; [|auto].
  simpl. intros Hin. destruct (Z.eq_dec i j) as [->|Hne].
  - revert es Hm Hin. induction (callbacks_ e) as [|x rest IH]; intros es Hm Hin;
      simpl in Hm; [discriminate|].
    destruct (id x =? j).
    + injection Hm as <-. destruct Hin as [Hx|Hin]; [discriminate|]. now right.
    + destruct (mark_inactive j rest) as [r|]; [|discriminate].
      injection Hm as <-. destruct Hin as [<-|Hin]; [now left|].
      right. now apply (IH r).
  - now apply (mark_inactive_other _ _ _ _ Hm) in Hin.
Qed.

Lemma live_cleanup i cb e :
  In (mkEntry i cb true) (callbacks_ e) <->
  In (mkEntry i cb true) (callbacks_ (cleanup e)).
Proof.
  unfold cleanup. destruct (needsCleanup_ e); simpl; [|tauto].
  unfold remove_inactive. rewrite List.filter_In. simpl. tauto.
Qed.

Lemma live_snapshot i cb e :
  In (mkEntry i cb true) (callbacks_ e) <->
  In (mkEntry i cb true) (snd (trigger_locked e)).
Proof.
  rewrite trigger_locked_snapshot, List.filter_In. simpl. tauto.
Qed.

Lemma dead_unsubscribe i j e :
  dead_id i (callbacks_ e) -> dead_id i (callbacks_ (unsubscribe j e)).
Proof.
  intros Hd x Hin Hx. destruct (active x) eqn:Ea; [|reflexivity].
  exfalso. assert (Hold : In x (callbacks_ e)).
  { destruct x as [xi xc xa]; simpl in *; subst xa.
    now apply (live_unsubscribe_inv xi j xc). }
  specialize (Hd x Hold Hx). congruence.
Qed.

Lemma dead_cleanup i e :
  dead_id i (callbacks_ e) -> dead_id i (callbacks_ (cleanup e)).
Proof.
  intros Hd x Hin. apply Hd. unfold cleanup in Hin.
  destruct (needsCleanup_ e); [|assumption].
  now apply List.filter_In in Hin.
Qed.

Lemma dead_snapshot i e :
  dead_id i (callbacks_ e) ->
  forall x, In x (snd (trigger_locked e)) -> id x <> i.
Proof.
  intros Hd x Hin Hx. rewrite trigger_locked_snapshot in Hin.
  apply List.filter_In in Hin as [Hin Ha]. rewrite (Hd x Hin Hx) in Ha. discriminate.
Qed.

(** Invoking a list that holds [f] calls [f], unless an empty function
    object met on the way ended the loop. *)
Lemma invoke_each_In (f : Cb) (cbs : list (option Cb)) (args : Args) calls :
  invoke_each cbs args = (calls, Returned) -> In (Some f) cbs -> In (f, args) calls.
Proof.
  revert calls. induction cbs as [|[g|] rest IH]; intros calls H Hin; simpl in *.
  - contradiction.
  - destruct (invoke_each rest args) as [c o'] eqn:E. injection H as <- ->.
    destruct Hin as [Hg|Hin]; [injection Hg as ->; now left|].
    right. now apply IH.
  - discriminate.
Qed.

(** *** The store invariant *)

Record inv σ : Prop := {
  inv_hubs : forall l e, hubs σ !! l = Some e ->
             hub_inv w e /\ (l < next_hub σ)%nat;
  inv_subs : forall v s l, subs σ !! v = Some s -> event_ s = Some l ->
             (l < next_hub σ)%nat /\
             forall e, hubs σ !! l = Some e -> 0 <= id_ s < nextId_ e;
  inv_owner : forall v1 v2 l i, owns σ v1 l i -> owns σ v2 l i -> v1 = v2
}.

Lemma inv_init : inv (@init Cb).
Proof.
  split; unfold owns; simpl; intros; simplify_map_eq.
Qed.

Lemma destructor_lookup s (hs : gmap nat (CEventSafe.t Cb)) l e' :
  destructor s hs !! l = Some e' ->
  exists e, hs !! l = Some e /\
            (e' = e \/ (event_ s = Some l /\ e' = unsubscribe (id_ s) e)).
Proof.
  unfold destructor. destruct (event_ s) as [l0|]; [|eauto].
  destruct (hs !! l0) as [e0|] eqn:E0; [|eauto].
  destruct (decide (l0 = l)) as [->|Hne].
  - rewrite lookup_insert_eq. intros [= <-]. eauto.
  - rewrite lookup_insert_ne by assumption. eauto.
Qed.

Lemma destructor_lookup_None s (hs : gmap nat (CEventSafe.t Cb)) l :
  hs !! l = None -> destructor s hs !! l = None.
Proof.
  intros H. unfold destructor. destruct (event_ s) as [l0|]; [|assumption].
  destruct (hs !! l0) as [e0|] eqn:E0; [|assumption].
  destruct (decide (l0 = l)) as [->|Hne]; [congruence|].
  now rewrite lookup_insert_ne.
Qed.

Lemma step_inv σ o σ' : inv σ -> step σ o = Some σ' -> inv σ'.
Proof.
  intros [Hh Hs Ho] Hstep. destruct o as [|l0|l0 cb v0|v0 src|dst src|v0|l0 args];
    simpl in Hstep.
  - (* MakeHub *)
    injection Hstep as <-. split; unfold owns; simpl.
    + intros l e Hl. destruct (decide (next_hub σ = l)) as [<-|Hne].
      * rewrite lookup_insert_eq in Hl. injection Hl as <-.
        split; [now apply hub_inv_empty | lia].
      * rewrite lookup_insert_ne in Hl by assumption.
        destruct (Hh l e Hl). split; [assumption | lia].
    + intros v s l Hv Hl. destruct (Hs v s l Hv Hl) as [Hlt Hid].
      split; [lia|]. intros e He. rewrite lookup_insert_ne in He by lia. auto.
    + exact Ho.
  - (* DropHub *)
    destruct (hubs σ !! l0) as [e0|] eqn:E0; [|discriminate].
    injection Hstep as <-. split; unfold owns; simpl.
    + intros l e Hl. apply lookup_delete_Some in Hl as [_ Hl]. auto.
    + intros v s l Hv Hl. destruct (Hs v s l Hv Hl) as [Hlt Hid].
      split; [assumption|]. intros e He. apply lookup_delete_Some in He as [_ He]. auto.
    + exact Ho.
  - (* Subscribe *)
    destruct (hubs σ !! l0) as [e0|] eqn:E0; [|discriminate].
    destruct (subs σ !! v0) as [?|] eqn:Ev0; [discriminate|].
    destruct (subscribe w cb e0) as [[e' i]|] eqn:Esub; [|discriminate].
    injection Hstep as <-.
    destruct (Hh l0 e0 E0) as [Hinv0 Hlt0].
    pose proof (subscribe_inv w _ _ _ _ Hinv0 Esub) as Hinv'.
    apply subscribe_spec in Esub as (-> & Hmax & ->).
    split; unfold owns; simpl.
    + intros l e Hl. destruct (decide (l0 = l)) as [<-|Hne].
      * rewrite lookup_insert_eq in Hl. injection Hl as <-. auto.
      * rewrite lookup_insert_ne in Hl by assumption. auto.
    + intros v s l Hv Hl. destruct (decide (v0 = v)) as [<-|Hnv].
      * rewrite lookup_insert_eq in Hv. injection Hv as <-. simpl in Hl.
        injection Hl as <-. split; [assumption|].
        intros e He. rewrite lookup_insert_eq in He. injection He as <-. simpl.
        destruct Hinv0. lia.
      * rewrite lookup_insert_ne in Hv by assumption.
        destruct (Hs v s l Hv Hl) as [Hlt Hid]. split; [assumption|].
        intros e He. destruct (decide (l0 = l)) as [<-|Hne].
        -- rewrite lookup_insert_eq in He. injection He as <-. simpl.
           specialize (Hid e0 E0). lia.
        -- rewrite lookup_insert_ne in He by assumption. auto.
    + intros v1 v2 l i H1 H2.
      destruct (decide (v0 = v1)) as [<-|Hn1]; destruct (decide (v0 = v2)) as [<-|Hn2];
        [reflexivity | | | ].
      * rewrite lookup_insert_eq in H1. rewrite lookup_insert_ne in H2 by assumption.
        injection H1 as <- <-. destruct (Hs v2 _ l0 H2 eq_refl) as [_ Hid].
        specialize (Hid e0 E0). simpl in Hid. lia.
      * rewrite lookup_insert_eq in H2. rewrite lookup_insert_ne in H1 by assumption.
        injection H2 as <- <-. destruct (Hs v1 _ l0 H1 eq_refl) as [_ Hid].
        specialize (Hid e0 E0). simpl in Hid. lia.
      * rewrite lookup_insert_ne in H1, H2 by assumption. eapply Ho; eassumption.
  - (* MoveConstruct *)
    unfold move_construct in Hstep.
    destruct (subs σ !! src) as [other|] eqn:Esrc; [|discriminate].
    destruct (subs σ !! v0) as [?|] eqn:Ev0; [discriminate|].
    injection Hstep as <-.
    assert (Hne : v0 <> src) by congruence.
    split; unfold owns; simpl.
    + exact Hh.
    + intros v s l Hv Hl. destruct (decide (v0 = v)) as [<-|Hnv].
      * rewrite lookup_insert_eq in Hv. injection Hv as <-. eauto.
      * rewrite lookup_insert_ne in Hv by assumption.
        destruct (decide (src = v)) as [<-|Hns].
        -- rewrite lookup_insert_eq in Hv. injection Hv as <-. discriminate.
        -- rewrite lookup_insert_ne in Hv by assumption. eauto.
    + intros v1 v2 l i H1 H2.
      assert (Hold : forall v, <[v0:=other]> (<[src:=moved_from]> (subs σ)) !! v
                               = Some (mkSub (Some l) i) ->
                     owns σ (if decide (v0 = v) then src else v) l i /\ v <> src).
      { intros v Hv. destruct (decide (v0 = v)) as [<-|Hnv].
        - rewrite lookup_insert_eq in Hv. injection Hv as ->. split; assumption.
        - rewrite lookup_insert_ne in Hv by assumption.
          destruct (decide (src = v)) as [<-|Hns].
          + rewrite lookup_insert_eq in Hv. discriminate.
          + rewrite lookup_insert_ne in Hv by assumption. split; [assumption|congruence]. }
      destruct (Hold v1 H1) as [O1 N1]. destruct (Hold v2 H2) as [O2 N2].
      pose proof (Ho _ _ _ _ O1 O2) as Heq.
      destruct (decide (v0 = v1)), (decide (v0 = v2)); congruence.
  - (* MoveAssign *)
    unfold move_assign in Hstep.
    destruct (subs σ !! dst) as [old|] eqn:Edst; [|discriminate].
    destruct (subs σ !! src) as [other|] eqn:Esrc; [|discriminate].
    destruct (decide (dst = src)) as [->|Hne].
    { injection Hstep as <-. destruct σ. split; assumption. }
    injection Hstep as <-.
    split; unfold owns; simpl.
    + exact Hh.
    + intros v s l Hv Hl. destruct (decide (dst = v)) as [<-|Hnv].
      * rewrite lookup_insert_eq in Hv. injection Hv as <-. eauto.
      * rewrite lookup_insert_ne in Hv by assumption.
        destruct (decide (src = v)) as [<-|Hns].
        -- rewrite lookup_insert_eq in Hv. injection Hv as <-. discriminate.
        -- rewrite lookup_insert_ne in Hv by assumption. eauto.
    + intros v1 v2 l i H1 H2.
      assert (Hold : forall v, <[dst:=other]> (<[src:=moved_from]> (subs σ)) !! v
                               = Some (mkSub (Some l) i) ->
                     owns σ (if decide (dst = v) then src else v) l i /\ v <> src).
      { intros v Hv. destruct (decide (dst = v)) as [<-|Hnv].
        - rewrite lookup_insert_eq in Hv. injection Hv as ->. split; assumption.
        - rewrite lookup_insert_ne in Hv by assumption.
          destruct (decide (src = v)) as [<-|Hns].
          + rewrite lookup_insert_eq in Hv. discriminate.
          + rewrite lookup_insert_ne in Hv by assumption. split; [assumption|congruence]. }
      destruct (Hold v1 H1) as [O1 N1]. destruct (Hold v2 H2) as [O2 N2].
      pose proof (Ho _ _ _ _ O1 O2) as Heq.
      destruct (decide (dst = v1)), (decide (dst = v2)); congruence.
  - (* Destroy *)
    destruct (subs σ !! v0) as [s0|] eqn:Ev0; [|discriminate].
    injection Hstep as <-. split; unfold owns; simpl.
    + intros l e Hl. apply destructor_lookup in Hl as (e1 & He1 & [->|[_ ->]]).
      * auto.
      * destruct (Hh l e1 He1). split; [now apply unsubscribe_inv | assumption].
    + intros v s l Hv Hl. apply lookup_delete_Some in Hv as [_ Hv].
      destruct (Hs v s l Hv Hl) as [Hlt Hid]. split; [assumption|].
      intros e He. apply destructor_lookup in He as (e1 & He1 & [->|[_ ->]]).
      * auto.
      * rewrite nextId_unsubscribe. auto.
    + intros v1 v2 l i H1 H2.
      apply lookup_delete_Some in H1 as [_ H1]. apply lookup_delete_Some in H2 as [_ H2].
      eapply Ho; eassumption.
  - (* Trigger *)
    destruct (hubs σ !! l0) as [e0|] eqn:E0; [|discriminate].
    injection Hstep as <-.
    change (fst (trigger args e0)) with (cleanup e0).
    split; unfold owns; simpl.
    + intros l e Hl. destruct (decide (l0 = l)) as [<-|Hne].
      * rewrite lookup_insert_eq in Hl. injection Hl as <-.
        destruct (Hh l0 e0 E0). split; [now apply cleanup_hub_inv | assumption].
      * rewrite lookup_insert_ne in Hl by assumption. auto.
    + intros v s l Hv Hl. destruct (Hs v s l Hv Hl) as [Hlt Hid].
      split; [assumption|]. intros e He. destruct (decide (l0 = l)) as [<-|Hne].
      * rewrite lookup_insert_eq in He. injection He as <-.
        rewrite nextId_cleanup. auto.
      * rewrite lookup_insert_ne in He by assumption. auto.
    + exact Ho.
Qed.

Lemma run_inv ops : forall σ σ', inv σ -> run σ ops = Some σ' -> inv σ'.
Proof.
  induction ops as [|o rest IH]; intros σ σ' Hi Hr; simpl in Hr.
  - now injection Hr as <-.
  - destruct (step σ o) as [σ1|] eqn:E; [|discriminate].
    eapply IH; [|eassumption]. eapply step_inv; eassumption.
Qed.

(** Every hub of a store reached from the empty one satisfies the hub
    invariant. *)
Lemma reachable_hub_inv ops σ l e :
  run init ops = Some σ -> hubs σ !! l = Some e -> hub_inv w e.
Proof.
  intros Hr Hl. apply (run_inv _ _ _ inv_init) in Hr.
  now destruct (inv_hubs _ Hr l e Hl).
Qed.


(** *** Registrations nobody owns, and registrations already dropped *)


(** Id [i] of the hub at [l] was issued and no active entry carries it. *)
Definition dead σ l i : Prop :=
  (l < next_hub σ)%nat /\
  (forall e, hubs σ !! l = Some e -> dead_id i (callbacks_ e) /\ i < nextId_ e).




Lemma step_dead σ o σ' l i :
  dead σ l i -> step σ o = Some σ' -> dead σ' l i.
Proof.
  intros (Hlt & Hd) Hstep.
  destruct o as [|l0|l0 cb0 v0|v0 src|dst src|v0|l0 args]; simpl in Hstep.
  - injection Hstep as <-. unfold dead. simpl. split; [lia|].
    intros e He. rewrite lookup_insert_ne in He by lia. auto.
  - destruct (hubs σ !! l0) as [e0|] eqn:E0; [|discriminate].
    injection Hstep as <-. unfold dead. simpl. split; [assumption|].
    intros e He. apply lookup_delete_Some in He as [_ He]. auto.
  - destruct (hubs σ !! l0) as [e0|] eqn:E0; [|discriminate].
    destruct (subs σ !! v0) as [?|] eqn:Ev0; [discriminate|].
    destruct (subscribe w cb0 e0) as [[e' j]|] eqn:Esub; [|discriminate].
    injection Hstep as <-. apply subscribe_spec in Esub as (-> & Hmax & ->).
    unfold dead. simpl. split; [assumption|].
    intros e He. destruct (decide (l0 = l)) as [->|Hne].
    + rewrite lookup_insert_eq in He. injection He as <-. simpl.
      destruct (Hd e0 E0) as [Hdead Hi]. split; [|lia].
      intros x Hin Hx. apply in_app_iff in Hin as [Hin|[<-|[]]].
      * now apply Hdead.
      * simpl in Hx. lia.
    + rewrite lookup_insert_ne in He by assumption. auto.
  - destruct (move_construct v0 src (subs σ)); [|discriminate].
    injection Hstep as <-. split; assumption.
  - destruct (move_assign dst src (subs σ)); [|discriminate].
    injection Hstep as <-. split; assumption.
  - destruct (subs σ !! v0) as [s0|] eqn:Ev0; [|discriminate].
    injection Hstep as <-. unfold dead. simpl. split; [assumption|].
    intros e He. apply destructor_lookup in He as (e1 & He1 & [->|[Hev ->]]).
    + auto.
    + destruct (Hd e1 He1). rewrite nextId_unsubscribe.
      split; [now apply dead_unsubscribe | assumption].
  - destruct (hubs σ !! l0) as [e0|] eqn:E0; [|discriminate].
    injection Hstep as <-. change (fst (trigger args e0)) with (cleanup e0).
    unfold dead. simpl. split; [assumption|].
    intros e He. destruct (decide (l0 = l)) as [->|Hne].
    + rewrite lookup_insert_eq in He. injection He as <-.
      destruct (Hd e0 E0). rewrite nextId_cleanup.
      split; [now apply dead_cleanup | assumption].
    + rewrite lookup_insert_ne in He by assumption. auto.
Qed.

Lemma run_dead ops : forall σ σ' l i,
  dead σ l i -> run σ ops = Some σ' -> dead σ' l i.
Proof.
  induction ops as [|o rest IH]; intros σ σ' l i Hl Hr; simpl in Hr.
  - now injection Hr as <-.
  - destruct (step σ o) as [σ1|] eqn:E; [|discriminate].
    eapply IH; [|eassumption]. eapply step_dead; eassumption.
Qed.


Lemma destructor_lookup_Some s (hs : gmap nat (CEventSafe.t Cb)) l e :
  hs !! l = Some e ->
  destructor s hs !! l
  = Some (if decide (event_ s = Some l) then unsubscribe (id_ s) e else e).
Proof.
  intros H. unfold destructor. destruct (event_ s) as [l0|].
  - destruct (decide (Some l0 = Some l)) as [[= ->]|Hne].
    + rewrite H. now rewrite lookup_insert_eq.
    + destruct (hs !! l0); [|assumption].
      rewrite lookup_insert_ne by congruence. assumption.
  - destruct (decide (None = Some l)); [discriminate | assumption].
Qed.

(** A registration stays live across every statement except the release of
    its hub and the destruction of the handle that owns it. *)
Lemma step_keeps_registered σ o σ' l i cb :
  inv σ -> step σ o = Some σ' -> registered σ l i cb ->
  registered σ' l i cb \/ o = DropHub l \/ (exists v, o = Destroy v /\ owns σ v l i).
Proof.
  intros [Hh _ _] Hstep (e & He & Hin). unfold registered.
  destruct o as [|l0|l0 cb0 v0|v0 src|dst src|v0|l0 args]; simpl in Hstep.
  - injection Hstep as <-. left. exists e. simpl. split; [|assumption].
    destruct (Hh l e He) as [_ Hlt]. now rewrite lookup_insert_ne by lia.
  - destruct (hubs σ !! l0) as [e0|] eqn:E0; [|discriminate].
    injection Hstep as <-. destruct (decide (l0 = l)) as [->|Hne]; [auto|].
    left. exists e. simpl. now rewrite lookup_delete_ne.
  - destruct (hubs σ !! l0) as [e0|] eqn:E0; [|discriminate].
    destruct (subs σ !! v0) as [?|] eqn:Ev0; [discriminate|].
    destruct (subscribe w cb0 e0) as [[e' j]|] eqn:Esub; [|discriminate].
    injection Hstep as <-. apply subscribe_spec in Esub as (-> & Hmax & ->).
    left. simpl. destruct (decide (l0 = l)) as [->|Hne].
    + rewrite lookup_insert_eq. eexists. split; [reflexivity|]. simpl.
      apply in_app_iff. left. congruence.
    + exists e. now rewrite lookup_insert_ne.
  - destruct (move_construct v0 src (subs σ)); [|discriminate].
    injection Hstep as <-. left. eauto.
  - destruct (move_assign dst src (subs σ)); [|discriminate].
    injection Hstep as <-. left. eauto.
  - destruct (subs σ !! v0) as [s0|] eqn:Ev0; [|discriminate].
    injection Hstep as <-. simpl.
    destruct (decide (s0 = mkSub (Some l) i)) as [->|Hne].
    + right. right. eauto.
    + left. rewrite (destructor_lookup_Some s0 _ l e He).
      eexists. split; [reflexivity|].
      destruct (decide (event_ s0 = Some l)) as [Hev|]; [|assumption].
      apply live_unsubscribe; [|assumption].
      intros ->. apply Hne. destruct s0; simpl in *. now subst.
  - destruct (hubs σ !! l0) as [e0|] eqn:E0; [|discriminate].
    injection Hstep as <-. change (fst (trigger args e0)) with (cleanup e0).
    left. simpl. destruct (decide (l0 = l)) as [->|Hne].
    + rewrite lookup_insert_eq. eexists. split; [reflexivity|].
      apply (proj1 (live_cleanup i cb e0)). congruence.
    + exists e. now rewrite lookup_insert_ne.
Qed.


(** *** Destroying the owner, and moving between two handles *)

Lemma destroy_owner σ v l i e :
  inv σ -> owns σ v l i -> hubs σ !! l = Some e ->
  exists σ1, step σ (Destroy v) = Some σ1
             /\ hubs σ1 = <[l := unsubscribe i e]> (hubs σ)
             /\ subs σ1 = delete v (subs σ)
             /\ dead σ1 l i
             /\ (forall v', ~ owns σ1 v' l i).
Proof.
  intros Hinv Hown He. destruct (inv_hubs _ Hinv l e He) as [Hhub Hlt].
  unfold owns in Hown. simpl. rewrite Hown. eexists. split; [reflexivity|].
  unfold destructor. simpl. rewrite He.
  split; [reflexivity|]. split; [reflexivity|]. split.
  - split; [assumption|]. simpl. intros e1 He1.
    rewrite lookup_insert_eq in He1. injection He1 as <-.
    split; [now apply (unsubscribe_dead w)|].
    rewrite nextId_unsubscribe.
    destruct (inv_subs _ Hinv v _ l Hown eq_refl) as [_ Hid].
    specialize (Hid e He). simpl in Hid. lia.
  - intros v' Hv'. unfold owns in Hv'. simpl in Hv'.
    apply lookup_delete_Some in Hv' as [Hne Hv'].
    apply Hne. eapply (inv_owner _ Hinv); eassumption.
Qed.

Lemma destroy_moved_from σ v :
  subs σ !! v = Some moved_from ->
  step σ (Destroy v)
  = Some {| hubs := hubs σ; next_hub := next_hub σ; subs := delete v (subs σ) |}.
Proof. intros H. simpl. rewrite H. reflexivity. Qed.

Lemma move_step σ o σ1 dst src s :
  subs σ !! src = Some s -> dst <> src ->
  o = MoveConstruct dst src \/ o = MoveAssign dst src ->
  step σ o = Some σ1 ->
  σ1 = {| hubs := hubs σ; next_hub := next_hub σ;
          subs := <[dst := s]> (<[src := moved_from]> (subs σ)) |}.
Proof.
  intros Hsrc Hne [->| ->] Hstep; simpl in Hstep.
  - unfold move_construct in Hstep. rewrite Hsrc in Hstep.
    destruct (subs σ !! dst); [discriminate|]. now injection Hstep as <-.
  - unfold move_assign in Hstep. rewrite Hsrc in Hstep.
    destruct (subs σ !! dst); [|discriminate].
    destruct (decide (dst = src)); [contradiction|]. now injection Hstep as <-.
Qed.

Lemma dead_snapshot_run σ l i ops σ2 e2 :
  dead σ l i -> run σ ops = Some σ2 -> hubs σ2 !! l = Some e2 ->
  forall x, In x (snd (trigger_locked e2)) -> id x <> i.
Proof.
  intros Hd Hr He2. destruct (run_dead _ _ _ _ _ Hd Hr) as [_ Hd2].
  destruct (Hd2 e2 He2) as [Hdead _]. now apply dead_snapshot.
Qed.


End WorldFacts.
End WorldFacts.

(** * The timed dispatcher: delays *)

Import IntTypes Delay Invoke.

Lemma int_max_ge_127 w : 8 <= w -> 127 <= INT_MAX w.
Proof.
  intros Hw. unfold INT_MAX.
  pose proof (Z.pow_le_mono_r 2 7 (w - 1) ltac:(lia) ltac:(lia)) as H.
  change (2 ^ 7) with 128 in H. lia.
Qed.

(** C8.  After [subscribe_with_delay(cb, 100)], [trigger] makes on the
    triggering thread exactly the calls it made before the registration
    (on a fresh dispatcher: none), so [cb] is not invoked synchronously.
    Each [trigger] detaches exactly one more thread for the registration;
    that thread waits the 100 ms it asked [nanosleep] for, whatever signals
    interrupt the sleep, and then calls [cb] once with the trigger's
    arguments. *)
Theorem C8_delayed_callback_fires_on_own_thread {Args Cb : Type}
  (w : Z) (cb : Cb) (args : Args) (signals : list Z) (e : CTimedEvent.t Cb) :
  8 <= w ->
  let th := CTimedEvent.launch_delayed cb 100 args in
  CTimedEvent.trigger args (CTimedEvent.subscribe_with_delay w (Some cb) 100 e)
  = (fst (CTimedEvent.trigger args e),
     (snd (CTimedEvent.trigger args e) ++ [th])%list)
  /\ CTimedEvent.trigger args
       (CTimedEvent.subscribe_with_delay w (Some cb) 100 CTimedEvent.empty)
     = ([], [th])
  /\ delay (to_int w 100) signals = (0, 100 * 1000000)
  /\ CTimedEvent.run_thread w signals th
     = {| CTimedEvent.waited_ns := 100 * 1000000;
          CTimedEvent.fired := (cb, args) |}.
Proof.
  intros Hw th.
  pose proof (int_max_ge_127 w Hw) as Hmax.
  assert (Hu : to_unsigned w 100 = 100).
  { apply to_unsigned_id. unfold UINT_MAX, INT_MAX in *.
    rewrite (pow2_split w) by lia. lia. }
  assert (Hi : to_int w 100 = 100) by (apply to_int_small; lia).
  repeat split.
  - rewrite CTimedEvent.trigger_subscribe_with_delay, Hu. reflexivity.
  - rewrite CTimedEvent.trigger_subscribe_with_delay, Hu. reflexivity.
  - rewrite Hi. now apply delay_nonneg.
  - unfold CTimedEvent.run_thread, th. simpl. rewrite Hi.
    rewrite delay_nonneg by lia. reflexivity.
Qed.

Lemma C8_delayed_callback_fires_on_own_thread_witness :
  8 <= 32 /\
  CTimedEvent.trigger 5
    (CTimedEvent.subscribe_with_delay 32 (Some 1%nat) 100 CTimedEvent.empty)
  = ([], [CTimedEvent.launch_delayed 1%nat 100 5]).
Proof.
  split; [lia|].
  exact (proj1 (proj2
    (C8_delayed_callback_fires_on_own_thread 32 1%nat 5 [] CTimedEvent.empty
       ltac:(lia)))).
Defined.

(** C10.  The delay parameter of [subscribe_with_delay] is an
    [unsigned int]: whatever the caller passes, the stored [delay_ms] lies
    in 0..UINT_MAX, so no negative delay is registered.  For a stored delay
    above INT_MAX the conversion at the call [delay(delay_ms)] is negative,
    [delay] returns -1 without sleeping, and the detached thread calls the
    callback at once. *)
Theorem C10_delay_above_int_max_fires_at_once {Args Cb : Type}
  (w : Z) (cb : Cb) (args : Args) (signals : list Z) (e : CTimedEvent.t Cb) (d : Z) :
  0 < w ->
  INT_MAX w < d <= UINT_MAX w ->
  (forall z, exists u,
      0 <= u <= UINT_MAX w
      /\ CTimedEvent.delayed_callbacks_
           (CTimedEvent.subscribe_with_delay w (Some cb) z e)
         = (CTimedEvent.delayed_callbacks_ e
            ++ [ {| CTimedEvent.func := Some cb; CTimedEvent.delay_ms := u |} ])%list)
  /\ CTimedEvent.delayed_callbacks_ (CTimedEvent.subscribe_with_delay w (Some cb) d e)
     = (CTimedEvent.delayed_callbacks_ e
        ++ [ {| CTimedEvent.func := Some cb; CTimedEvent.delay_ms := d |} ])%list
  /\ to_int w d < 0
  /\ delay (to_int w d) signals = (-1, 0)
  /\ snd (CTimedEvent.trigger args (CTimedEvent.subscribe_with_delay w (Some cb) d e))
     = (snd (CTimedEvent.trigger args e)
        ++ [CTimedEvent.launch_delayed cb d args])%list
  /\ CTimedEvent.run_thread w signals (CTimedEvent.launch_delayed cb d args)
     = {| CTimedEvent.waited_ns := 0; CTimedEvent.fired := (cb, args) |}.
Proof.
  intros Hw Hd.
  assert (H0 : 0 <= d).
  { unfold INT_MAX in Hd. pose proof (pow2_pos (w - 1)). lia. }
  assert (Hu : to_unsigned w d = d) by (apply to_unsigned_id; lia).
  pose proof (to_int_large_neg w d Hw Hd) as Hneg.
  split.
  { intros z. exists (to_unsigned w z).
    split; [apply to_unsigned_range; lia | reflexivity]. }
  split; [unfold CTimedEvent.subscribe_with_delay; simpl; now rewrite Hu|].
  split; [assumption|].
  split; [now apply delay_negative|].
  split.
  - rewrite CTimedEvent.trigger_subscribe_with_delay, Hu. reflexivity.
  - unfold CTimedEvent.run_thread. simpl. now rewrite delay_negative.
Qed.

Lemma C10_delay_above_int_max_fires_at_once_witness :
  0 < 32 /\ INT_MAX 32 < 3000000000 <= UINT_MAX 32 /\
  CTimedEvent.run_thread 32 [] (CTimedEvent.launch_delayed 1%nat 3000000000 5)
  = {| CTimedEvent.waited_ns := 0; CTimedEvent.fired := (1%nat, 5) |}.
Proof.
  assert (Hd : INT_MAX 32 < 3000000000 <= UINT_MAX 32) by (vm_compute; intuition discriminate).
  split; [lia|]. split; [exact Hd|].
  exact (proj2 (proj2 (proj2 (proj2 (proj2
    (C10_delay_above_int_max_fires_at_once 32 1%nat 5 [] CTimedEvent.empty
       3000000000 ltac:(lia) Hd)))))).
Defined.

(** C1 (the code departs from it).  A caller who asks for a delay of -5
    gets no failure at registration ([subscribe_with_delay] returns nothing
    and stores the converted value), and at dispatch the thread's call
    [delay(delay_ms)] returns -1, which the thread drops: it has waited
    0 ns when it calls the callback, and its run carries no failure mark. *)
Theorem C1_negative_delay_fires_unflagged {Args Cb : Type}
  (cb : Cb) (args : Args) (signals : list Z) :
  let e := CTimedEvent.subscribe_with_delay 32 (Some cb) (-5) CTimedEvent.empty in
  CTimedEvent.delayed_callbacks_ e
  = [ {| CTimedEvent.func := Some cb; CTimedEvent.delay_ms := 4294967291 |} ]
  /\ CTimedEvent.trigger args e
     = ([], [CTimedEvent.launch_delayed cb 4294967291 args])
  /\ to_int 32 4294967291 = -5
  /\ delay (-5) signals = (-1, 0)
  /\ CTimedEvent.run_thread 32 signals (CTimedEvent.launch_delayed cb 4294967291 args)
     = {| CTimedEvent.waited_ns := 0; CTimedEvent.fired := (cb, args) |}.
Proof.
  repeat split.
Qed.


(** * The hubs: null callbacks, order, tombstones *)

Import Entry EntryFacts CEventSafeFacts.

(** C2 (the code departs from it).  Subscribe an empty function object and
    then a callback [b].  CGlobalEvent and the dispatcher's immediate list
    test [if (callback)] and call [b] alone.  CEventSafe, CEvent and
    CSimpleEvent call the empty object: [trigger] ends with
    [std::bad_function_call] and [b] is never called. *)
Theorem C2_null_callback_ends_trigger {Args Cb : Type} (b : Cb) (args : Args) :
  (exists e1 e2,
      CEventSafe.subscribe 32 None CEventSafe.empty = Some (e1, 0)
      /\ CEventSafe.subscribe 32 (Some b) e1 = Some (e2, 1)
      /\ snd (CEventSafe.trigger args e2) = ([], Threw_bad_function_call))
  /\ (exists e1 e2,
      CEvent.subscribe 32 None CEvent.empty = Some (e1, 0)
      /\ CEvent.subscribe 32 (Some b) e1 = Some (e2, 1)
      /\ snd (CEvent.trigger args e2) = ([], Threw_bad_function_call))
  /\ CSimpleEvent.trigger args
       (CSimpleEvent.subscribe (Some b)
          (CSimpleEvent.subscribe None CSimpleEvent.empty))
     = ([], Threw_bad_function_call)
  /\ CGlobalEvent.trigger args
       (CGlobalEvent.subscribe (Some b)
          (CGlobalEvent.subscribe None CGlobalEvent.empty))
     = [(b, args)]
  /\ fst (CTimedEvent.trigger args
            (CTimedEvent.subscribe (Some b)
               (CTimedEvent.subscribe None CTimedEvent.empty)))
     = [(b, args)].
Proof.
  split; [do 2 eexists; repeat split|].
  split; [do 2 eexists; repeat split|].
  repeat split.
Qed.

Lemma int_max_ge_3 w : 3 <= w -> 3 <= INT_MAX w.
Proof.
  intros Hw. unfold INT_MAX.
  pose proof (Z.pow_le_mono_r 2 2 (w - 1) ltac:(lia) ltac:(lia)) as H.
  change (2 ^ 2) with 4 in H. lia.
Qed.

Lemma filter_active_app {Cb : Type} (l1 l2 : list (CallbackEntry Cb)) :
  List.filter active (l1 ++ l2) = (List.filter active l1 ++ List.filter active l2)%list.
Proof.
  induction l1 as [|x l IH]; simpl; [reflexivity|].
  destruct (active x); simpl; now rewrite IH.
Qed.

(** C6.  On every hub and on the dispatcher's immediate list, subscribing
    A, B, C in that order to a fresh object and triggering with [args]
    calls A(args), B(args), C(args) in that order and nothing else.  On a
    CEventSafe hub in any state the three entries are appended, in that
    order, to the snapshot that [trigger] walks. *)
Theorem C6_subscription_order_is_call_order {Args Cb : Type}
  (w : Z) (A B C : Cb) (args : Args) :
  3 <= w ->
  let calls := [(A, args); (B, args); (C, args)] in
  CSimpleEvent.trigger args
    (CSimpleEvent.subscribe (Some C)
       (CSimpleEvent.subscribe (Some B)
          (CSimpleEvent.subscribe (Some A) CSimpleEvent.empty)))
  = (calls, Returned)
  /\ CGlobalEvent.trigger args
       (CGlobalEvent.subscribe (Some C)
          (CGlobalEvent.subscribe (Some B)
             (CGlobalEvent.subscribe (Some A) CGlobalEvent.empty)))
     = calls
  /\ CTimedEvent.trigger args
       (CTimedEvent.subscribe (Some C)
          (CTimedEvent.subscribe (Some B)
             (CTimedEvent.subscribe (Some A) CTimedEvent.empty)))
     = (calls, [])
  /\ (exists e1 e2 e3,
        CEvent.subscribe w (Some A) CEvent.empty = Some (e1, 0)
        /\ CEvent.subscribe w (Some B) e1 = Some (e2, 1)
        /\ CEvent.subscribe w (Some C) e2 = Some (e3, 2)
        /\ snd (CEvent.trigger args e3) = (calls, Returned))
  /\ (exists e1 e2 e3,
        CEventSafe.subscribe w (Some A) CEventSafe.empty = Some (e1, 0)
        /\ CEventSafe.subscribe w (Some B) e1 = Some (e2, 1)
        /\ CEventSafe.subscribe w (Some C) e2 = Some (e3, 2)
        /\ snd (CEventSafe.trigger args e3) = (calls, Returned))
  /\ (forall e e1 e2 e3 i1 i2 i3,
        CEventSafe.subscribe w (Some A) e = Some (e1, i1) ->
        CEventSafe.subscribe w (Some B) e1 = Some (e2, i2) ->
        CEventSafe.subscribe w (Some C) e2 = Some (e3, i3) ->
        snd (CEventSafe.trigger_locked e3)
        = (snd (CEventSafe.trigger_locked e)
           ++ [mkEntry i1 (Some A) true; mkEntry i2 (Some B) true;
               mkEntry i3 (Some C) true])%list).
Proof.
  intros Hw calls. pose proof (int_max_ge_3 w Hw) as Hmax.
  split; [reflexivity|]. split; [reflexivity|]. split; [reflexivity|].
  split; [|split].
  - unfold CEvent.subscribe. simpl.
    destruct (Z.ltb_spec 0 (INT_MAX w)); [|lia]. do 3 eexists.
    split; [reflexivity|]. simpl.
    destruct (Z.ltb_spec (0 + 1) (INT_MAX w)); [|lia].
    split; [reflexivity|]. simpl.
    destruct (Z.ltb_spec (0 + 1 + 1) (INT_MAX w)); [|lia].
    split; reflexivity.
  - unfold CEventSafe.subscribe. simpl.
    destruct (Z.ltb_spec 0 (INT_MAX w)); [|lia]. do 3 eexists.
    split; [reflexivity|]. simpl.
    destruct (Z.ltb_spec (0 + 1) (INT_MAX w)); [|lia].
    split; [reflexivity|]. simpl.
    destruct (Z.ltb_spec (0 + 1 + 1) (INT_MAX w)); [|lia].
    split; reflexivity.
  - intros e e1 e2 e3 i1 i2 i3 H1 H2 H3.
    apply subscribe_spec in H1 as (-> & _ & ->).
    apply subscribe_spec in H2 as (-> & _ & ->).
    apply subscribe_spec in H3 as (-> & _ & ->).
    rewrite !trigger_locked_snapshot. simpl.
    rewrite !filter_active_app. simpl. rewrite <- !app_assoc. reflexivity.
Qed.

Lemma C6_subscription_order_is_call_order_witness :
  3 <= 32 /\
  exists e1 e2 e3,
    CEventSafe.subscribe 32 (Some 1%nat) CEventSafe.empty = Some (e1, 0)
    /\ CEventSafe.subscribe 32 (Some 2%nat) e1 = Some (e2, 1)
    /\ CEventSafe.subscribe 32 (Some 3%nat) e2 = Some (e3, 2)
    /\ snd (CEventSafe.trigger 5 e3)
       = ([(1%nat, 5); (2%nat, 5); (3%nat, 5)], Returned).
Proof.
  split; [lia|].
  exact (proj1 (proj2 (proj2 (proj2 (proj2
    (C6_subscription_order_is_call_order 32 1%nat 2%nat 3%nat 5 ltac:(lia))))))).
Defined.

(** A hub with one tombstone (id 0), one live entry (id 1), and the cleanup
    flag raised: what two [subscribe] calls and the destruction of the first
    handle leave behind. *)
Definition hub_with_tombstone : CEventSafe.t nat :=
  {| CEventSafe.needsCleanup_ := true;
     CEventSafe.nextId_ := 2;
     CEventSafe.callbacks_ := [mkEntry 0 (Some 10%nat) false;
                               mkEntry 1 (Some 11%nat) true] |}.

Lemma hub_with_tombstone_inv : hub_inv 32 hub_with_tombstone.
Proof.
  split; simpl.
  - reflexivity.
  - intros x [<-|[<-|[]]]; simpl; lia.
  - repeat constructor; simpl; intuition discriminate.
  - vm_compute. intuition discriminate.
Qed.

(** C7.  [unsubscribe(id)] keeps every entry in place (same ids, same
    callbacks, same counter); when the id is registered the entry that
    carries it is inactive afterwards and the cleanup flag is set.  An
    unknown id and an id whose entry is already a tombstone leave the hub
    exactly as it was, and a second [unsubscribe] of the same id changes
    nothing.  Entries with another id are untouched, and the snapshot of the
    next [trigger] is the old snapshot without the entry of that id. *)
Theorem C7_unsubscribe_marks_and_is_idempotent {Cb : Type}
  (w : Z) (e : CEventSafe.t Cb) (i : Z) :
  hub_inv w e ->
  let e' := CEventSafe.unsubscribe i e in
  map id (CEventSafe.callbacks_ e') = map id (CEventSafe.callbacks_ e)
  /\ map callback (CEventSafe.callbacks_ e') = map callback (CEventSafe.callbacks_ e)
  /\ CEventSafe.nextId_ e' = CEventSafe.nextId_ e
  /\ (In i (map id (CEventSafe.callbacks_ e)) ->
      CEventSafe.needsCleanup_ e' = true
      /\ (exists x, In x (CEventSafe.callbacks_ e') /\ id x = i /\ active x = false)
      /\ dead_id i (CEventSafe.callbacks_ e'))
  /\ (~ In i (map id (CEventSafe.callbacks_ e)) -> e' = e)
  /\ (dead_id i (CEventSafe.callbacks_ e) -> e' = e)
  /\ CEventSafe.unsubscribe i e' = e'
  /\ (forall x, id x <> i ->
        (In x (CEventSafe.callbacks_ (CEventSafe.unsubscribe i e'))
         <-> In x (CEventSafe.callbacks_ e)))
  /\ snd (CEventSafe.trigger_locked (CEventSafe.unsubscribe i e'))
     = List.filter (fun x => negb (id x =? i)) (snd (CEventSafe.trigger_locked e)).
Proof.
  intros Hinv e'.
  assert (Hidem : CEventSafe.unsubscribe i e' = e') by apply unsubscribe_idempotent.
  rewrite Hidem. subst e'.
  split; [|split; [|split; [|split; [|split; [|split; [|split; [|split]]]]]]].
  - unfold CEventSafe.unsubscribe.
    destruct (mark_inactive i (CEventSafe.callbacks_ e)) eqn:Hm; [|reflexivity].
    simpl. eapply mark_inactive_ids; eassumption.
  - unfold CEventSafe.unsubscribe.
    destruct (mark_inactive i (CEventSafe.callbacks_ e)) eqn:Hm; [|reflexivity].
    simpl. eapply mark_inactive_callbacks; eassumption.
  - unfold CEventSafe.unsubscribe.
    now destruct (mark_inactive i (CEventSafe.callbacks_ e)).
  - intros Hin. split; [|split].
    + unfold CEventSafe.unsubscribe.
      destruct (mark_inactive i (CEventSafe.callbacks_ e)) eqn:Hm; [reflexivity|].
      apply mark_inactive_None in Hm. contradiction.
    + unfold CEventSafe.unsubscribe.
      destruct (mark_inactive i (CEventSafe.callbacks_ e)) eqn:Hm.
      * simpl. eapply mark_inactive_marks; eassumption.
      * apply mark_inactive_None in Hm. contradiction.
    + now apply (unsubscribe_dead w).
  - apply unsubscribe_unknown.
  - now apply (unsubscribe_tombstoned w).
  - reflexivity.
  - intros x Hx. unfold CEventSafe.unsubscribe.
    destruct (mark_inactive i (CEventSafe.callbacks_ e)) eqn:Hm; [|tauto].
    simpl. eapply mark_inactive_other; eassumption.
  - now apply (unsubscribe_snapshot w).
Qed.

Lemma C7_unsubscribe_marks_and_is_idempotent_witness :
  hub_inv 32 hub_with_tombstone /\
  snd (CEventSafe.trigger_locked
         (CEventSafe.unsubscribe 1 (CEventSafe.unsubscribe 1 hub_with_tombstone)))
  = List.filter (fun x => negb (id x =? 1))
      (snd (CEventSafe.trigger_locked hub_with_tombstone)).
Proof.
  split; [exact hub_with_tombstone_inv|].
  exact (proj2 (proj2 (proj2 (proj2 (proj2 (proj2 (proj2 (proj2
    (C7_unsubscribe_marks_and_is_idempotent 32 hub_with_tombstone 1
       hub_with_tombstone_inv))))))))).
Defined.

(** C3, as the code has it.  Only [trigger] runs the cleanup pass.  On a hub
    that satisfies the invariant, one [trigger] leaves no inactive entry in
    storage and clears the flag: the stored list becomes the list of the
    entries that were active, and when every entry was a tombstone the list
    is empty and no callback is called.  [subscribe] appends its entry and
    removes nothing, so the number of stored tombstones is unchanged by it. *)
Theorem C3_trigger_reclaims_tombstones {Args Cb : Type}
  (w : Z) (e : CEventSafe.t Cb) (args : Args) :
  hub_inv w e ->
  let e' := fst (CEventSafe.trigger args e) in
  count_inactive (CEventSafe.callbacks_ e') = 0%nat
  /\ CEventSafe.needsCleanup_ e' = false
  /\ CEventSafe.callbacks_ e' = List.filter active (CEventSafe.callbacks_ e)
  /\ ((forall x, In x (CEventSafe.callbacks_ e) -> active x = false) ->
      CEventSafe.callbacks_ e' = [] /\ snd (CEventSafe.trigger args e) = ([], Returned))
  /\ (forall cb e1 i, CEventSafe.subscribe w cb e = Some (e1, i) ->
        count_inactive (CEventSafe.callbacks_ e1)
        = count_inactive (CEventSafe.callbacks_ e)).
Proof.
  intros Hinv e'. subst e'. rewrite trigger_state.
  pose proof (cleanup_all_active w e Hinv) as Hall.
  assert (Hkeep : CEventSafe.callbacks_ (CEventSafe.cleanup e)
                  = List.filter active (CEventSafe.callbacks_ e)).
  { revert Hall. unfold CEventSafe.cleanup.
    destruct (CEventSafe.needsCleanup_ e); simpl; intros Hall; [reflexivity|].
    symmetry. now apply filter_active_id. }
  split; [now apply count_inactive_all_active|].
  split; [unfold CEventSafe.cleanup;
          destruct (CEventSafe.needsCleanup_ e) eqn:En; simpl; congruence|].
  split; [assumption|]. split.
  - intros Hdead.
    assert (Hnil : CEventSafe.callbacks_ (CEventSafe.cleanup e) = []).
    { rewrite Hkeep. now apply remove_inactive_all_dead. }
    split; [assumption|].
    rewrite trigger_calls, trigger_locked_snapshot.
    rewrite <- Hkeep, Hnil. reflexivity.
  - intros cb e1 i Hsub. apply subscribe_spec in Hsub as (_ & _ & ->). simpl.
    unfold count_inactive. rewrite List.filter_app, length_app. simpl. lia.
Qed.

Lemma C3_trigger_reclaims_tombstones_witness :
  hub_inv 32 hub_with_tombstone /\
  count_inactive
    (CEventSafe.callbacks_ (fst (CEventSafe.trigger 5 hub_with_tombstone))) = 0%nat.
Proof.
  split; [exact hub_with_tombstone_inv|].
  exact (proj1 (C3_trigger_reclaims_tombstones 32 hub_with_tombstone 5
                  hub_with_tombstone_inv)).
Defined.

(** C3, as stated, fails for [subscribe]: after the only handle is dropped
    the single entry is a tombstone, and the next [subscribe] returns a hub
    that still stores it. *)
Lemma C3_subscribe_keeps_tombstones :
  exists e1 e2,
    CEventSafe.subscribe 32 (Some 10%nat) CEventSafe.empty = Some (e1, 0)
    /\ Forall (fun x => active x = false)
         (CEventSafe.callbacks_ (CEventSafe.unsubscribe 0 e1))
    /\ CEventSafe.subscribe 32 (Some 11%nat) (CEventSafe.unsubscribe 0 e1)
       = Some (e2, 1)
    /\ count_inactive (CEventSafe.callbacks_ e2) = 1%nat.
Proof.
  do 2 eexists. split; [reflexivity|]. split; [repeat constructor|].
  split; reflexivity.
Qed.

(** * Handles: moves and destruction *)

Import World WorldFacts.

(** Two live registrations on one hub, each owned by its handle: the store
    after [MakeHub; Subscribe 0 (Some 10) 0; Subscribe 0 (Some 11) 1]. *)
Definition two_handles : World.t nat :=
  {| hubs := {[ 0%nat :=
                {| CEventSafe.needsCleanup_ := false;
                   CEventSafe.nextId_ := 2;
                   CEventSafe.callbacks_ := [mkEntry 0 (Some 10%nat) true;
                                             mkEntry 1 (Some 11%nat) true] |} ]};
     next_hub := 1;
     subs := {[ 0%nat := mkSub (Some 0%nat) 0; 1%nat := mkSub (Some 0%nat) 1 ]} |}.

Lemma two_handles_run :
  @World.run Z nat 32 World.init
    [MakeHub; Subscribe 0 (Some 10%nat) 0; Subscribe 0 (Some 11%nat) 1]
  = Some two_handles.
Proof. vm_compute. reflexivity. Qed.

Lemma two_handles_inv : @inv nat 32 two_handles.
Proof.
  eapply (@run_inv Z nat 32 ltac:(lia)); [apply inv_init | apply two_handles_run].
Qed.







(** C5.  The hub at [l] is alive.  (a) Destroying a handle that owns
    registration [i] of it runs [unsubscribe(i)], and from then on, whatever
    statements follow, no snapshot taken by [trigger] on that hub holds an
    entry with id [i].  (b) Subscribing and dropping the handle at once
    leaves a hub on which [trigger] makes exactly the calls it would have
    made before the [subscribe]. *)
Theorem C5_dropped_handle_is_not_called {Args Cb : Type}
  (w : Z) (σ : World.t Cb) (l : nat) (e : CEventSafe.t Cb) :
  0 < w ->
  inv w σ ->
  hubs σ !! l = Some e ->
  (forall v i, owns σ v l i ->
     exists σ1,
       @World.step Args Cb w σ (Destroy v) = Some σ1
       /\ hubs σ1 !! l = Some (CEventSafe.unsubscribe i e)
       /\ forall ops σ2 e2,
            @World.run Args Cb w σ1 ops = Some σ2 ->
            hubs σ2 !! l = Some e2 ->
            forall x, In x (snd (CEventSafe.trigger_locked e2)) -> id x <> i)
  /\ (forall cb v σa,
        @World.step Args Cb w σ (Subscribe l cb v) = Some σa ->
        exists σb eb,
          @World.step Args Cb w σa (Destroy v) = Some σb
          /\ hubs σb !! l = Some eb
          /\ forall args : Args,
               snd (CEventSafe.trigger args eb) = snd (CEventSafe.trigger args e)).
Proof.
  intros Hw Hinv He. split.
  - intros v i Hown.
    destruct (@destroy_owner Args Cb w σ v l i e Hinv Hown He)
      as (σ1 & Hstep & Hhubs & _ & Hdead & _).
    exists σ1. split; [exact Hstep|]. split.
    + rewrite Hhubs. apply lookup_insert_eq.
    + intros ops σ2 e2 Hrun He2. eapply dead_snapshot_run; eassumption.
  - intros cb v σa Hsub.
    assert (Hinva : inv w σa) by (eapply (@step_inv Args Cb w Hw); eassumption).
    simpl in Hsub. rewrite He in Hsub.
    destruct (subs σ !! v) eqn:Ev; [discriminate|].
    destruct (CEventSafe.subscribe w cb e) as [[e' i]|] eqn:Esub; [|discriminate].
    injection Hsub as <-.
    assert (Hown : owns {| hubs := <[l:=e']> (hubs σ); next_hub := next_hub σ;
                           subs := <[v:={| event_ := Some l; id_ := i |}]> (subs σ) |}
                     v l i) by apply lookup_insert_eq.
    assert (He' : hubs {| hubs := <[l:=e']> (hubs σ); next_hub := next_hub σ;
                          subs := <[v:={| event_ := Some l; id_ := i |}]> (subs σ) |}
                  !! l = Some e') by apply lookup_insert_eq.
    destruct (@destroy_owner Args Cb w _ v l i e' Hinva Hown He')
      as (σb & Hstep & Hhubs & _ & _ & _).
    exists σb, (CEventSafe.unsubscribe i e'). split; [exact Hstep|]. split.
    + rewrite Hhubs. apply lookup_insert_eq.
    + intros args. rewrite !trigger_calls. f_equal. f_equal.
      destruct (inv_hubs _ _ Hinv l e He) as [Hhub _].
      destruct (inv_hubs _ _ Hinva l e' He') as [Hhub' _].
      rewrite (unsubscribe_snapshot w i e' Hhub').
      apply subscribe_spec in Esub as (-> & _ & ->).
      rewrite !trigger_locked_snapshot. cbn [CEventSafe.callbacks_].
      rewrite filter_active_app, List.filter_app. simpl.
      rewrite Z.eqb_refl. simpl. rewrite app_nil_r.
      apply filter_unknown_id. intros Hin.
      apply in_map_iff in Hin as (x & Hx & Hin).
      pose proof (inv_bounded _ _ Hhub x Hin). lia.
Qed.

Lemma C5_dropped_handle_is_not_called_witness :
  inv 32 two_handles /\ owns two_handles 1 0 1 /\
  exists σ1,
    @World.step Z nat 32 two_handles (Destroy 1) = Some σ1
    /\ forall x, World.snapshot σ1 0 = Some x -> Forall (fun y => id y <> 1) x.
Proof.
  split; [exact two_handles_inv|]. split; [reflexivity|].
  destruct (proj1 (@C5_dropped_handle_is_not_called Z nat 32 two_handles 0%nat _
                     ltac:(lia) two_handles_inv eq_refl) 1%nat 1 eq_refl)
    as (σ1 & H1 & H2 & H3).
  exists σ1. split; [exact H1|].
  intros x Hx. unfold World.snapshot in Hx. rewrite H2 in Hx. injection Hx as <-.
  apply List.Forall_forall. exact (H3 [] σ1 _ eq_refl H2).
Defined.

(** C4.  A move between two distinct handle objects
    (move construction, or move assignment with [this != &other]):
    - touches no hub, so it unsubscribes nothing;
    - gives the target the source's members and leaves the source with an
      empty weak pointer and id -1;
    - keeps the store invariant, in particular at most one handle owns a
      given registration, so the same holds after any number of moves;
    - makes the destruction of the source a no-op on every hub;
    - makes the destruction of the target run the destructor on the
      members the source had; if that unsubscribes registration [(l, i)], no
      handle owns [(l, i)] afterwards, so it is unsubscribed once.
    For a live registration the source owned: the entry is in the snapshot
    of a [trigger] after the move and after the source's destruction, and
    in no snapshot once the target is destroyed.  In general a statement
    ends a live registration only by releasing the hub or by destroying the
    handle that owns it. *)
Theorem C4_move_transfers_ownership {Args Cb : Type}
  (w : Z) (σ σ1 : World.t Cb) (dst src : nat) (s : Subscription)
  (o : op Args Cb) :
  0 < w ->
  inv w σ ->
  subs σ !! src = Some s ->
  dst <> src ->
  o = MoveConstruct dst src \/ o = MoveAssign dst src ->
  World.step w σ o = Some σ1 ->
  hubs σ1 = hubs σ
  /\ subs σ1 !! dst = Some s
  /\ subs σ1 !! src = Some moved_from
  /\ inv w σ1
  /\ (exists σ2, @World.step Args Cb w σ1 (Destroy src) = Some σ2
                 /\ hubs σ2 = hubs σ1)
  /\ (exists σ3, @World.step Args Cb w σ1 (Destroy dst) = Some σ3
                 /\ hubs σ3 = destructor s (hubs σ)
                 /\ forall l i, owns σ src l i -> forall v, ~ owns σ3 v l i)
  /\ (forall l i cb, owns σ src l i -> registered σ l i cb ->
        (exists e1, hubs σ1 !! l = Some e1
                    /\ In (mkEntry i cb true) (snd (CEventSafe.trigger_locked e1)))
        /\ (forall σ2 e2, @World.step Args Cb w σ1 (Destroy src) = Some σ2 ->
              hubs σ2 !! l = Some e2 ->
              In (mkEntry i cb true) (snd (CEventSafe.trigger_locked e2)))
        /\ (forall σ3 ops σ4 e4,
              @World.step Args Cb w σ1 (Destroy dst) = Some σ3 ->
              @World.run Args Cb w σ3 ops = Some σ4 ->
              hubs σ4 !! l = Some e4 ->
              forall x, In x (snd (CEventSafe.trigger_locked e4)) -> id x <> i))
  /\ (forall (o' : op Args Cb) σ' l i cb,
        World.step w σ1 o' = Some σ' -> registered σ1 l i cb ->
        registered σ' l i cb \/ o' = DropHub l
        \/ exists v, o' = Destroy v /\ owns σ1 v l i).
Proof.
  intros Hw Hinv Hsrc Hne Ho Hstep.
  assert (Hinv1 : inv w σ1) by (eapply (@step_inv Args Cb w Hw); eassumption).
  pose proof (move_step w σ o σ1 dst src s Hsrc Hne Ho Hstep) as ->.
  clear Hstep. cbn [hubs subs].
  set (σ1 := {| hubs := hubs σ; next_hub := next_hub σ;
                subs := <[dst:=s]> (<[src:=moved_from]> (subs σ)) |}) in *.
  assert (Hdst : subs σ1 !! dst = Some s) by apply lookup_insert_eq.
  assert (Hmoved : subs σ1 !! src = Some moved_from).
  { unfold σ1. cbn [subs]. rewrite lookup_insert_ne by assumption.
    apply lookup_insert_eq. }
  assert (Hd3 : @World.step Args Cb w σ1 (Destroy dst)
                = Some {| hubs := destructor s (hubs σ); next_hub := next_hub σ;
                          subs := delete dst (subs σ1) |}).
  { simpl. rewrite lookup_insert_eq. reflexivity. }
  split; [reflexivity|]. split; [exact Hdst|]. split; [exact Hmoved|].
  split; [exact Hinv1|]. split; [|split; [|split]].
  - eexists. split; [apply destroy_moved_from; exact Hmoved | reflexivity].
  - eexists. split; [exact Hd3|]. split; [reflexivity|].
    intros l i Hown v Hv. unfold owns in Hown, Hv. cbn [subs] in Hv.
    apply lookup_delete_Some in Hv as [Hnv Hv].
    apply Hnv. eapply (inv_owner _ _ Hinv1); [|exact Hv].
    unfold owns. rewrite Hdst. congruence.
  - intros l i cb Hown (e & He & Hin). split; [|split].
    + exists e. split; [exact He | now apply live_snapshot].
    + intros σ2 e2 Hs2 He2.
      rewrite (destroy_moved_from w σ1 src Hmoved) in Hs2. injection Hs2 as <-.
      cbn [hubs] in He2. unfold σ1 in He2. cbn [hubs] in He2.
      rewrite He in He2. injection He2 as <-. now apply live_snapshot.
    + intros σ3 ops σ4 e4 Hs3 Hrun He4.
      assert (Hown1 : owns σ1 dst l i).
      { unfold owns. rewrite Hdst. unfold owns in Hown. congruence. }
      destruct (@destroy_owner Args Cb w σ1 dst l i e Hinv1 Hown1 He)
        as (σ3' & Hs3' & _ & _ & Hdead & _).
      rewrite Hs3 in Hs3'. injection Hs3' as <-.
      eapply dead_snapshot_run; eassumption.
  - intros o' σ' l i cb Hs' Hreg. eapply step_keeps_registered; eassumption.
Qed.

Lemma C4_move_transfers_ownership_witness :
  inv 32 two_handles /\
  exists σ1,
    @World.step Z nat 32 two_handles (MoveConstruct 2 1) = Some σ1
    /\ hubs σ1 = hubs two_handles
    /\ subs σ1 !! 2%nat = Some (mkSub (Some 0%nat) 1)
    /\ subs σ1 !! 1%nat = Some moved_from.
Proof.
  split; [exact two_handles_inv|].
  eexists. split; [reflexivity|].
  destruct (@C4_move_transfers_ownership Z nat 32 two_handles _ 2%nat 1%nat
              (mkSub (Some 0%nat) 1) (MoveConstruct 2 1)
              ltac:(lia) two_handles_inv eq_refl ltac:(discriminate)
              (or_introl eq_refl) eq_refl)
    as (H1 & H2 & H3 & _).
  auto.
Defined.

(** The guard of the move assignment: [h = std::move(h)] takes the branch
    [this == &other], so the handle keeps its weak pointer and its id and
    still unsubscribes when it is destroyed. *)
Lemma self_move_assign_keeps_ownership :
  exists σ σ',
    @World.run Z nat 32 World.init
      [MakeHub; Subscribe 0 (Some 10%nat) 0; MoveAssign 0 0] = Some σ
    /\ subs σ !! 0%nat = Some (mkSub (Some 0%nat) 0)
    /\ World.snapshot σ 0 = Some [mkEntry 0 (Some 10%nat) true]
    /\ @World.step Z nat 32 σ (Destroy 0) = Some σ'
    /\ World.snapshot σ' 0 = Some [].
Proof.
  do 2 eexists. split; [vm_compute; reflexivity|].
  split; [vm_compute; reflexivity|]. split; [vm_compute; reflexivity|].
  split; [vm_compute; reflexivity|]. vm_compute. reflexivity.
Qed.

(** * Further properties: the timed dispatcher *)

Module DispatcherFacts.
Import IntTypes Delay Invoke.

(** An [int] that goes through the [unsigned int] parameter and back comes
    out unchanged. *)
Lemma to_int_to_unsigned w n :
  0 < w -> INT_MIN w <= n <= INT_MAX w -> to_int w (to_unsigned w n) = n.
Proof.
  intros Hw Hn. unfold to_int, to_unsigned, INT_MIN, INT_MAX in *.
  pose proof (pow2_split w Hw) as Hs. pose proof (pow2_pos (w - 1) ltac:(lia)) as Hp.
  rewrite Z.mod_mod by lia.
  destruct (Z.neg_nonneg_cases n) as [Hneg|Hpos].
  - assert (Hm : n mod 2 ^ w = n + 2 ^ w).
    { symmetry. apply (Z.mod_unique n (2 ^ w) (-1)); lia. }
    rewrite Hm. destruct (Z.leb_spec (n + 2 ^ w) (2 ^ (w - 1) - 1)); lia.
  - rewrite Z.mod_small by lia.
    destruct (Z.leb_spec n (2 ^ (w - 1) - 1)); lia.
Qed.

(** The calls that registering [cb] adds to a null-checking loop. *)
Definition called {Args Cb : Type} (cb : option Cb) (args : Args) : list (Cb * Args) :=
  match cb with
  | Some f => [(f, args)]
  | None => []
  end.

(** Registrations made on a dispatcher, in program order. *)
Inductive registration {Cb : Type} :=
| Immediate (cb : option Cb)
| Delayed (cb : option Cb) (delay_ms : Z).
Arguments registration : clear implicits.

Definition register {Cb : Type} (w : Z) (e : CTimedEvent.t Cb) (r : registration Cb)
  : CTimedEvent.t Cb :=
  match r with
  | Immediate cb => CTimedEvent.subscribe cb e
  | Delayed cb d => CTimedEvent.subscribe_with_delay w cb d e
  end.

End DispatcherFacts.

Import DispatcherFacts.

(** X1.  [delay] never returns early or late because of signals: for a
    non-negative argument it returns 0 after sleeping exactly the requested
    milliseconds, whatever interruptions arrive (the timespec it builds is
    always valid, and every interrupted [nanosleep] is resumed for the
    remaining time); for a negative argument it returns -1 at once. *)
Theorem delay_result_ignores_signals (nMs : Z) (signals : list Z) :
  delay nMs signals = if nMs <? 0 then (-1, 0) else (0, nMs * 1000000).
Proof.
  destruct (Z.ltb_spec nMs 0).
  - now apply delay_negative.
  - now apply delay_nonneg.
Qed.

(** X2.  A caller passes an [int] delay [n].  The thread that a later
    [trigger] detaches for this registration behaves as [delay(n)] says:
    it calls the callback after exactly [n] ms when [n >= 0], and at once
    when [n < 0]. *)
Theorem delayed_thread_follows_int_argument {Args Cb : Type}
  (w : Z) (cb : Cb) (args : Args) (signals : list Z) (e : CTimedEvent.t Cb) (n : Z) :
  0 < w ->
  INT_MIN w <= n <= INT_MAX w ->
  let th := CTimedEvent.launch_delayed cb (to_unsigned w n) args in
  snd (CTimedEvent.trigger args (CTimedEvent.subscribe_with_delay w (Some cb) n e))
  = (snd (CTimedEvent.trigger args e) ++ [th])%list
  /\ CTimedEvent.run_thread w signals th
     = {| CTimedEvent.waited_ns := if n <? 0 then 0 else n * 1000000;
          CTimedEvent.fired := (cb, args) |}.
Proof.
  intros Hw Hn th. split.
  - now rewrite CTimedEvent.trigger_subscribe_with_delay.
  - unfold CTimedEvent.run_thread, th. cbn [CTimedEvent.captured_delay_ms CTimedEvent.launch_delayed].
    rewrite to_int_to_unsigned by assumption.
    destruct (Z.ltb_spec n 0) as [Hlt|Hge];
      [rewrite delay_negative by assumption | rewrite delay_nonneg by assumption];
      reflexivity.
Qed.

Lemma delayed_thread_follows_int_argument_witness :
  0 < 32 /\ INT_MIN 32 <= -1 <= INT_MAX 32 /\
  CTimedEvent.run_thread 32 [3; 4]
    (CTimedEvent.launch_delayed 1%nat (to_unsigned 32 (-1)) 5)
  = {| CTimedEvent.waited_ns := 0; CTimedEvent.fired := (1%nat, 5) |}.
Proof.
  assert (Hn : INT_MIN 32 <= -1 <= INT_MAX 32) by (vm_compute; intuition discriminate).
  split; [lia|]. split; [exact Hn|].
  exact (proj2 (delayed_thread_follows_int_argument 32 1%nat 5 [3; 4]
                  CTimedEvent.empty (-1) ltac:(lia) Hn)).
Defined.

(** X3.  How registrations compose with [trigger] on the two classes whose
    loop tests the function object.  Subscribing [cb] appends its call (none
    for an empty function object) after all earlier calls and changes
    nothing else; on the dispatcher, an immediate registration leaves the
    detached threads as they were, and a delayed registration leaves the
    synchronous calls as they were and appends one thread, or none when the
    function object is empty. *)
Theorem null_checked_registrations_compose {Args Cb : Type}
  (w : Z) (args : Args) (cb : option Cb) (delay_ms : Z)
  (g : CGlobalEvent.t Cb) (d : CTimedEvent.t Cb) :
  CGlobalEvent.trigger args (CGlobalEvent.subscribe cb g)
  = (CGlobalEvent.trigger args g ++ called cb args)%list
  /\ CTimedEvent.trigger args (CTimedEvent.subscribe cb d)
     = ((fst (CTimedEvent.trigger args d) ++ called cb args)%list,
        snd (CTimedEvent.trigger args d))
  /\ CTimedEvent.trigger args (CTimedEvent.subscribe_with_delay w cb delay_ms d)
     = (fst (CTimedEvent.trigger args d),
        (snd (CTimedEvent.trigger args d)
         ++ match cb with
            | Some f => [CTimedEvent.launch_delayed f (to_unsigned w delay_ms) args]
            | None => []
            end)%list).
Proof.
  split; [|split].
  - unfold CGlobalEvent.trigger, CGlobalEvent.subscribe. simpl.
    rewrite invoke_nonnull_app. now destruct cb.
  - unfold CTimedEvent.trigger, CTimedEvent.subscribe. simpl.
    rewrite invoke_nonnull_app. now destruct cb.
  - unfold CTimedEvent.trigger, CTimedEvent.subscribe_with_delay. simpl.
    rewrite CTimedEvent.spawn_all_app. now destruct cb.
Qed.

(** X4.  The dispatcher is append-only: whatever registrations are made
    later, every [trigger] still makes all the calls and detaches all the
    threads it did before, first and in the same order. *)
Theorem dispatcher_registrations_are_permanent {Args Cb : Type}
  (w : Z) (args : Args) (e : CTimedEvent.t Cb) (later : list (registration Cb)) :
  exists more_calls more_threads,
    CTimedEvent.trigger args (fold_left (register w) later e)
    = ((fst (CTimedEvent.trigger args e) ++ more_calls)%list,
       (snd (CTimedEvent.trigger args e) ++ more_threads)%list).
Proof.
  revert e. induction later as [|r rest IH]; intros e; simpl.
  - exists [], []. rewrite !app_nil_r. reflexivity.
  - destruct (IH (register w e r)) as (c & t & ->).
    destruct r as [cb|cb d]; simpl.
    + unfold CTimedEvent.trigger, CTimedEvent.subscribe. simpl.
      rewrite invoke_nonnull_app, <- app_assoc. eauto.
    + unfold CTimedEvent.trigger, CTimedEvent.subscribe_with_delay. simpl.
      rewrite CTimedEvent.spawn_all_app, <- app_assoc. eauto.
Qed.

(** X5.  CSimpleEvent calls every function object without a test.  If
    [trigger] returned normally, subscribing a callback appends its call,
    and subscribing an empty function object keeps the calls and makes
    [trigger] throw; if [trigger] threw, a further subscription changes
    nothing, because the loop never gets past the empty object. *)
Theorem simple_event_subscribe_law {Args Cb : Type}
  (args : Args) (cb : option Cb) (e : CSimpleEvent.t Cb) :
  CSimpleEvent.trigger args (CSimpleEvent.subscribe cb e)
  = match CSimpleEvent.trigger args e, cb with
    | (calls, Returned), Some f => ((calls ++ [(f, args)])%list, Returned)
    | (calls, Returned), None => (calls, Threw_bad_function_call)
    | (calls, Threw_bad_function_call), _ => (calls, Threw_bad_function_call)
    end.
Proof.
  unfold CSimpleEvent.trigger, CSimpleEvent.subscribe. simpl.
  induction (CSimpleEvent.callbacks_ e) as [|[g|] rest IH]; simpl.
  - now destruct cb.
  - rewrite IH. destruct (invoke_each rest args) as [calls [|]]; now destruct cb.
  - reflexivity.
Qed.

(** X6.  CSimpleEvent has no way to remove a subscription, so one empty
    function object disables the event for good: once [trigger] throws, it
    throws after the same calls whatever is subscribed later. *)
Theorem simple_event_stays_poisoned {Args Cb : Type}
  (args : Args) (e : CSimpleEvent.t Cb) (later : list (option Cb))
  (calls : list (Cb * Args)) :
  CSimpleEvent.trigger args e = (calls, Threw_bad_function_call) ->
  CSimpleEvent.trigger args
    (fold_left (fun e' cb => CSimpleEvent.subscribe cb e') later e)
  = (calls, Threw_bad_function_call).
Proof.
  revert e. induction later as [|cb rest IH]; intros e H; simpl; [assumption|].
  apply IH. clear IH. unfold CSimpleEvent.trigger, CSimpleEvent.subscribe in *. simpl.
  revert calls H. induction (CSimpleEvent.callbacks_ e) as [|[g|] l IHl];
    intros calls H; simpl in *.
  - discriminate.
  - destruct (invoke_each l args) as [c o] eqn:E. injection H as <- ->.
    now rewrite (IHl c eq_refl).
  - assumption.
Qed.

Lemma simple_event_stays_poisoned_witness :
  CSimpleEvent.trigger 5
    (fold_left (fun e' cb => CSimpleEvent.subscribe cb e') [Some 3%nat; Some 4%nat]
       (CSimpleEvent.subscribe None
          (CSimpleEvent.subscribe (Some 1%nat) CSimpleEvent.empty)))
  = ([(1%nat, 5)], Threw_bad_function_call).
Proof.
  exact (simple_event_stays_poisoned 5
           (CSimpleEvent.subscribe None
              (CSimpleEvent.subscribe (Some 1%nat) CSimpleEvent.empty))
           [Some 3%nat; Some 4%nat] [(1%nat, 5)] eq_refl).
Defined.

(** * Further properties: CEvent against CEventSafe *)

(** The member functions of a hub as a client can sequence them.
    [unsubscribe] is private in both classes and is reached through the
    Subscription destructor with the id the handle carries. *)
Module HubOps.
Import IntTypes Invoke Entry EntryFacts.
Section HubOps.
Context {Args Cb : Type}.
Variable w : Z.

Inductive hub_op :=
| HSubscribe (cb : option Cb)
| HUnsubscribe (i : Z)
| HTrigger (args : Args).

(** What a call hands back: the id bound into the Subscription, nothing,
    or the calls made and how the loop ended. *)
Inductive hub_out :=
| OId (i : Z)
| ODone
| OCalls (calls : list (Cb * Args)) (o : outcome).

Definition event_step (e : CEvent.t Cb) (op : hub_op) : option (CEvent.t Cb * hub_out) :=
  match op with
  | HSubscribe cb =>
      match CEvent.subscribe w cb e with
      | Some (e', i) => Some (e', OId i)
      | None => None
      end
  | HUnsubscribe i => Some (CEvent.unsubscribe i e, ODone)
  | HTrigger args =>
      let '(e', (calls, o)) := CEvent.trigger args e in Some (e', OCalls calls o)
  end.

Definition safe_step (e : CEventSafe.t Cb) (op : hub_op)
  : option (CEventSafe.t Cb * hub_out) :=
  match op with
  | HSubscribe cb =>
      match CEventSafe.subscribe w cb e with
      | Some (e', i) => Some (e', OId i)
      | None => None
      end
  | HUnsubscribe i => Some (CEventSafe.unsubscribe i e, ODone)
  | HTrigger args =>
      let '(e', (calls, o)) := CEventSafe.trigger args e in Some (e', OCalls calls o)
  end.

Fixpoint event_run (e : CEvent.t Cb) (ops : list hub_op) : option (list hub_out) :=
  match ops with
  | [] => Some []
  | op :: rest =>
      match event_step e op with
      | Some (e', out) => option_map (cons out) (event_run e' rest)
      | None => None
      end
  end.

Fixpoint safe_run (e : CEventSafe.t Cb) (ops : list hub_op) : option (list hub_out) :=
  match ops with
  | [] => Some []
  | op :: rest =>
      match safe_step e op with
      | Some (e', out) => option_map (cons out) (safe_run e' rest)
      | None => None
      end
  end.

(** The two hubs hold the same data, and a stored tombstone is announced
    by the cleanup flag. *)
Definition same_hub (e : CEvent.t Cb) (s : CEventSafe.t Cb) : Prop :=
  CEvent.needsCleanup_ e = CEventSafe.needsCleanup_ s
  /\ CEvent.nextId_ e = CEventSafe.nextId_ s
  /\ CEvent.callbacks_ e = CEventSafe.callbacks_ s
  /\ ((exists x, In x (CEvent.callbacks_ e) /\ active x = false) ->
      CEvent.needsCleanup_ e = true).

Lemma same_hub_empty : same_hub CEvent.empty CEventSafe.empty.
Proof. repeat split. intros (x & [] & _). Qed.

Lemma same_hub_step e s op :
  same_hub e s ->
  match event_step e op, safe_step s op with
  | Some (e', out), Some (s', out') => out = out' /\ same_hub e' s'
  | None, None => True
  | _, _ => False
  end.
Proof.
  destruct e as [ec en el], s as [sc sn sl].
  intros (Hc & Hn & Hl & Hinv). simpl in *. subst sc sn sl.
  destruct op as [cb|i|args]; simpl.
  - unfold CEvent.subscribe, CEventSafe.subscribe. simpl.
    destruct (en <? INT_MAX w); [|exact I].
    split; [reflexivity|]. repeat split; simpl.
    intros (x & Hin & Hx). apply in_app_iff in Hin as [Hin|[<-|[]]].
    + apply Hinv. eauto.
    + discriminate.
  - unfold CEvent.unsubscribe, CEventSafe.unsubscribe. simpl.
    destruct (mark_inactive i el) as [es|]; simpl.
    + split; [reflexivity|]. repeat split.
    + split; [reflexivity|]. repeat split. exact Hinv.
  - unfold CEvent.trigger, CEventSafe.trigger, CEventSafe.trigger_locked,
      CEvent.cleanup, CEventSafe.cleanup. simpl.
    destruct ec; simpl.
    + unfold remove_inactive.
      rewrite (filter_active_id (List.filter active el))
        by (apply remove_inactive_all_active).
      destruct (invoke_each (map callback (List.filter active el)) args) as [calls o].
      split; [reflexivity|]. repeat split; simpl.
      intros (x & Hin & Hx). apply List.filter_In in Hin as [_ Hin]. congruence.
    + assert (Hall : Forall (fun x => active x = true) el).
      { apply List.Forall_forall. intros x Hin. destruct (active x) eqn:Ea; [reflexivity|].
        assert (false = true) by (apply Hinv; eauto). discriminate. }
      rewrite (filter_active_id el Hall).
      destruct (invoke_each (map callback el) args) as [calls o].
      split; [reflexivity|]. repeat split; simpl. exact Hinv.
Qed.

Lemma same_hub_run ops : forall e s,
  same_hub e s -> event_run e ops = safe_run s ops.
Proof.
  induction ops as [|op rest IH]; intros e s Hs; simpl; [reflexivity|].
  pose proof (same_hub_step e s op Hs) as Hstep.
  destruct (event_step e op) as [[e' out]|], (safe_step s op) as [[s' out']|];
    try contradiction; [|reflexivity].
  destruct Hstep as [-> Hs']. now rewrite (IH e' s' Hs').
Qed.

End HubOps.
Arguments hub_op : clear implicits.
Arguments hub_out : clear implicits.
End HubOps.

(** X7.  CEvent's [trigger] calls every stored entry without looking at
    [active], where CEventSafe's calls the active ones only.  For every
    sequence of [subscribe], [unsubscribe] and [trigger] calls on a fresh
    hub the two classes nevertheless hand back the same ids and make the
    same calls with the same outcome: in CEvent every tombstone is erased by
    the cleanup pass before the loop runs. *)
Theorem event_and_event_safe_agree {Args Cb : Type}
  (w : Z) (ops : list (HubOps.hub_op Args Cb)) :
  HubOps.event_run w CEvent.empty ops = HubOps.safe_run w CEventSafe.empty ops.
Proof. apply HubOps.same_hub_run, HubOps.same_hub_empty. Qed.

(** * Further properties: the store of hubs and handles *)

From Stdlib Require Import Sorted.

Module StoreFacts.
Import IntTypes Invoke Entry EntryFacts CEventSafe CEventSafeFacts World WorldFacts.
Section StoreFacts.
Context {Args Cb : Type}.
Variable w : Z.
Implicit Types (σ : World.t Cb) (o : op Args Cb) (e : CEventSafe.t Cb)
  (s : Subscription) (i : Z) (l v : nat) (cb : option Cb).

Local Abbreviation step := (@World.step Args Cb w).
Local Abbreviation run := (@World.run Args Cb w).

(** A property of hubs that the three member functions keep holds of every
    hub of every store a program can reach. *)
Section HubInduction.
Variable P : CEventSafe.t Cb -> Prop.
Hypothesis P_empty : P CEventSafe.empty.
Hypothesis P_subscribe : forall cb e e' i, P e -> subscribe w cb e = Some (e', i) -> P e'.
Hypothesis P_unsubscribe : forall i e, P e -> P (unsubscribe i e).
Hypothesis P_cleanup : forall e, P e -> P (cleanup e).

Lemma step_hubs σ o σ' :
  (forall l e, hubs σ !! l = Some e -> P e) -> step σ o = Some σ' ->
  forall l e, hubs σ' !! l = Some e -> P e.
Proof.
  intros Hall Hstep l e Hl.
  destruct o as [|l0|l0 cb v0|v0 src|dst src|v0|l0 args]; simpl in Hstep.
  - injection Hstep as <-. simpl in Hl.
    destruct (decide (next_hub σ = l)) as [<-|Hne].
    + rewrite lookup_insert_eq in Hl. now injection Hl as <-.
    + rewrite lookup_insert_ne in Hl by assumption. eauto.
  - destruct (hubs σ !! l0); [|discriminate]. injection Hstep as <-. simpl in Hl.
    apply lookup_delete_Some in Hl as [_ Hl]. eauto.
  - destruct (hubs σ !! l0) as [e0|] eqn:E0; [|discriminate].
    destruct (subs σ !! v0); [discriminate|].
    destruct (subscribe w cb e0) as [[e' i]|] eqn:Esub; [|discriminate].
    injection Hstep as <-. simpl in Hl.
    destruct (decide (l0 = l)) as [->|Hne].
    + rewrite lookup_insert_eq in Hl. injection Hl as <-. eauto.
    + rewrite lookup_insert_ne in Hl by assumption. eauto.
  - destruct (move_construct v0 src (subs σ)); [|discriminate].
    injection Hstep as <-. eauto.
  - destruct (move_assign dst src (subs σ)); [|discriminate].
    injection Hstep as <-. eauto.
  - destruct (subs σ !! v0) as [s0|]; [|discriminate].
    injection Hstep as <-. simpl in Hl.
    apply destructor_lookup in Hl as (e1 & He1 & [->|[_ ->]]); eauto.
  - destruct (hubs σ !! l0) as [e0|] eqn:E0; [|discriminate].
    injection Hstep as <-. change (fst (trigger args e0)) with (cleanup e0) in Hl.
    simpl in Hl. destruct (decide (l0 = l)) as [->|Hne].
    + rewrite lookup_insert_eq in Hl. injection Hl as <-. eauto.
    + rewrite lookup_insert_ne in Hl by assumption. eauto.
Qed.

Lemma run_hubs ops : forall σ σ',
  (forall l e, hubs σ !! l = Some e -> P e) -> run σ ops = Some σ' ->
  forall l e, hubs σ' !! l = Some e -> P e.
Proof.
  induction ops as [|o rest IH]; intros σ σ' Hall Hr; simpl in Hr.
  - now injection Hr as <-.
  - destruct (step σ o) as [σ1|] eqn:E; [|discriminate].
    eapply IH; [|eassumption]. eapply step_hubs; eassumption.
Qed.

Lemma reachable_hubs ops σ l e :
  run init ops = Some σ -> hubs σ !! l = Some e -> P e.
Proof.
  intros Hr. eapply run_hubs; [|exact Hr]. intros l' e' H. simpl in H.
  rewrite lookup_empty in H. discriminate.
Qed.

End HubInduction.

(** Stored ids are strictly increasing, non-negative and below the counter. *)
Definition ids_ascending e : Prop :=
  StronglySorted Z.lt (map id (callbacks_ e))
  /\ (forall x, In x (callbacks_ e) -> 0 <= id x < nextId_ e)
  /\ 0 <= nextId_ e.

Lemma sorted_snoc (l : list Z) n :
  StronglySorted Z.lt l -> (forall x, In x l -> x < n) ->
  StronglySorted Z.lt (l ++ [n]).
Proof.
  induction 1 as [|a l Hs IH Ha]; intros Hlt; simpl.
  - repeat constructor.
  - constructor.
    + apply IH. intros x Hx. apply Hlt. now right.
    + apply Forall_app. split; [assumption|].
      constructor; [|constructor]. apply Hlt. now left.
Qed.

Lemma sorted_map_filter (p : CallbackEntry Cb -> bool) (es : list (CallbackEntry Cb)) :
  StronglySorted Z.lt (map id es) -> StronglySorted Z.lt (map id (List.filter p es)).
Proof.
  induction es as [|x rest IH]; simpl; intros H; [constructor|].
  inversion H as [|? ? Hs Hall]; subst.
  destruct (p x); simpl; [|auto]. constructor; [auto|].
  apply List.Forall_forall. intros y Hy. apply in_map_iff in Hy as (z & <- & Hz).
  apply List.filter_In in Hz as [Hz _].
  rewrite List.Forall_forall in Hall. apply Hall. now apply in_map.
Qed.

Lemma ids_ascending_empty : ids_ascending (@CEventSafe.empty Cb).
Proof. split; [constructor|]. split; [intros x []|simpl; lia]. Qed.

Lemma ids_ascending_subscribe cb e e' i :
  ids_ascending e -> subscribe w cb e = Some (e', i) -> ids_ascending e'.
Proof.
  intros (Hs & Hb & Hn) H. apply subscribe_spec in H as (-> & _ & ->).
  split; [|split]; simpl.
  - rewrite map_app. simpl. apply sorted_snoc; [assumption|].
    intros x Hx. apply in_map_iff in Hx as (y & <- & Hy). now apply Hb.
  - intros x Hin. apply in_app_iff in Hin as [Hin|[<-|[]]].
    + specialize (Hb x Hin). lia.
    + simpl. lia.
  - lia.
Qed.

Lemma ids_ascending_unsubscribe i e :
  ids_ascending e -> ids_ascending (unsubscribe i e).
Proof.
  intros (Hs & Hb & Hn). unfold unsubscribe.
  destruct (mark_inactive i (callbacks_ e)) as [es|] eqn:Hm; [|exact (conj Hs (conj Hb Hn))].
  split; [|split]; simpl.
  - now rewrite (mark_inactive_ids _ _ _ Hm).
  - intros x Hin. apply (in_map id) in Hin.
    rewrite (mark_inactive_ids _ _ _ Hm) in Hin.
    apply in_map_iff in Hin as (y & Hy & Hin). rewrite <- Hy. now apply Hb.
  - assumption.
Qed.

Lemma ids_ascending_cleanup e : ids_ascending e -> ids_ascending (cleanup e).
Proof.
  intros (Hs & Hb & Hn). unfold cleanup.
  destruct (needsCleanup_ e); [|exact (conj Hs (conj Hb Hn))].
  split; [|split]; simpl.
  - now apply sorted_map_filter.
  - intros x Hin. apply List.filter_In in Hin as [Hin _]. now apply Hb.
  - assumption.
Qed.

(** Once released, a hub is never seen again at its address. *)
Definition gone σ l : Prop := (l < next_hub σ)%nat /\ hubs σ !! l = None.

Lemma step_gone σ o σ' l : gone σ l -> step σ o = Some σ' -> gone σ' l.
Proof.
  intros [Hlt Hnone] Hstep.
  destruct o as [|l0|l0 cb v0|v0 src|dst src|v0|l0 args]; simpl in Hstep.
  - injection Hstep as <-. split; simpl; [lia|]. now rewrite lookup_insert_ne by lia.
  - destruct (hubs σ !! l0); [|discriminate]. injection Hstep as <-.
    split; simpl; [assumption|]. apply lookup_delete_None. now right.
  - destruct (hubs σ !! l0) as [e0|] eqn:E0; [|discriminate].
    destruct (subs σ !! v0); [discriminate|].
    destruct (subscribe w cb e0) as [[e' i]|]; [|discriminate].
    injection Hstep as <-. split; simpl; [assumption|].
    rewrite lookup_insert_ne by congruence. assumption.
  - destruct (move_construct v0 src (subs σ)); [|discriminate].
    injection Hstep as <-. now split.
  - destruct (move_assign dst src (subs σ)); [|discriminate].
    injection Hstep as <-. now split.
  - destruct (subs σ !! v0) as [s0|]; [|discriminate].
    injection Hstep as <-. split; simpl; [assumption|].
    now apply destructor_lookup_None.
  - destruct (hubs σ !! l0) as [e0|] eqn:E0; [|discriminate].
    injection Hstep as <-. split; simpl; [assumption|].
    rewrite lookup_insert_ne by congruence. assumption.
Qed.

Lemma run_gone ops : forall σ σ' l, gone σ l -> run σ ops = Some σ' -> gone σ' l.
Proof.
  induction ops as [|o rest IH]; intros σ σ' l Hg Hr; simpl in Hr.
  - now injection Hr as <-.
  - destruct (step σ o) as [σ1|] eqn:E; [|discriminate].
    eapply IH; [|eassumption]. eapply step_gone; eassumption.
Qed.

Lemma destroy_stale σ v s l :
  subs σ !! v = Some s -> event_ s = Some l -> hubs σ !! l = None ->
  step σ (Destroy v)
  = Some {| hubs := hubs σ; next_hub := next_hub σ; subs := delete v (subs σ) |}.
Proof.
  intros Hv Hl Hnone. simpl. rewrite Hv. unfold destructor. now rewrite Hl, Hnone.
Qed.

End StoreFacts.
End StoreFacts.

Import StoreFacts.

(** X8.  In every store a program can reach, each hub stores its entries
    with strictly increasing ids, all of them non-negative and below the
    hub's counter: ids are issued in order and never reused.  In particular
    no entry carries the sentinel -1 of a moved-from handle, so
    [unsubscribe(-1)] changes nothing. *)
Theorem stored_ids_strictly_increase {Args Cb : Type}
  (w : Z) (ops : list (op Args Cb)) (σ : World.t Cb) (l : nat) (e : CEventSafe.t Cb) :
  World.run w World.init ops = Some σ ->
  hubs σ !! l = Some e ->
  StronglySorted Z.lt (map id (CEventSafe.callbacks_ e))
  /\ (forall x, In x (CEventSafe.callbacks_ e) ->
        0 <= id x < CEventSafe.nextId_ e)
  /\ 0 <= CEventSafe.nextId_ e
  /\ CEventSafe.unsubscribe (-1) e = e.
Proof.
  intros Hrun Hl.
  destruct (@reachable_hubs Args Cb w ids_ascending ids_ascending_empty
              (ids_ascending_subscribe w) ids_ascending_unsubscribe
              ids_ascending_cleanup ops σ l e Hrun Hl) as (Hs & Hb & Hn).
  repeat split; try assumption; try (now apply Hb).
  apply unsubscribe_unknown. intros Hin.
  apply in_map_iff in Hin as (x & Hx & Hin). specialize (Hb x Hin). lia.
Qed.

Lemma stored_ids_strictly_increase_witness :
  @World.run Z nat 32 World.init
    [MakeHub; Subscribe 0 (Some 10%nat) 0; Subscribe 0 (Some 11%nat) 1]
  = Some two_handles
  /\ forall e, hubs two_handles !! 0%nat = Some e ->
       StronglySorted Z.lt (map id (CEventSafe.callbacks_ e)).
Proof.
  split; [exact two_handles_run|]. intros e He.
  exact (proj1 (@stored_ids_strictly_increase Z nat 32 _ two_handles 0%nat e
                  two_handles_run He)).
Defined.

(** X9.  In every store a program can reach, a registration is owned by at
    most one handle, and a handle bound to a hub that is still alive carries
    an id which that hub has issued. *)
Theorem reachable_handles_own_uniquely {Args Cb : Type}
  (w : Z) (ops : list (op Args Cb)) (σ : World.t Cb) :
  0 < w ->
  World.run w World.init ops = Some σ ->
  (forall v1 v2 l i, owns σ v1 l i -> owns σ v2 l i -> v1 = v2)
  /\ (forall v s l e,
        subs σ !! v = Some s -> event_ s = Some l -> hubs σ !! l = Some e ->
        0 <= id_ s < CEventSafe.nextId_ e).
Proof.
  intros Hw Hrun.
  pose proof (@run_inv Args Cb w Hw ops _ _ (inv_init w) Hrun) as Hinv.
  split.
  - exact (inv_owner _ _ Hinv).
  - intros v s l e Hv Hl He.
    destruct (inv_subs _ _ Hinv v s l Hv Hl) as [_ Hid]. now apply Hid.
Qed.

Lemma reachable_handles_own_uniquely_witness :
  0 < 32 /\
  forall v1 v2 l i, owns two_handles v1 l i -> owns two_handles v2 l i -> v1 = v2.
Proof.
  split; [lia|].
  exact (proj1 (@reachable_handles_own_uniquely Z nat 32 _ two_handles
                  ltac:(lia) two_handles_run)).
Defined.

(** X10.  When the last owner releases a hub while handles still refer to
    it, no handle changes, the hub never reappears at that address whatever
    the program does next (hubs created later get new addresses), and the
    destruction of any handle that refers to it leaves every hub untouched. *)
Theorem released_hub_is_never_touched_again {Args Cb : Type}
  (w : Z) (σ : World.t Cb) (l : nat) (e : CEventSafe.t Cb) :
  inv w σ ->
  hubs σ !! l = Some e ->
  exists σ1,
    @World.step Args Cb w σ (DropHub l) = Some σ1
    /\ subs σ1 = subs σ
    /\ forall ops σ2,
         @World.run Args Cb w σ1 ops = Some σ2 ->
         hubs σ2 !! l = None
         /\ forall v s,
              subs σ2 !! v = Some s -> event_ s = Some l ->
              exists σ3, @World.step Args Cb w σ2 (Destroy v) = Some σ3
                         /\ hubs σ3 = hubs σ2.
Proof.
  intros Hinv He. destruct (inv_hubs _ _ Hinv l e He) as [_ Hlt].
  eexists. split; [simpl; rewrite He; reflexivity|].
  split; [reflexivity|]. intros ops σ2 Hrun.
  assert (Hg : gone {| hubs := delete l (hubs σ); next_hub := next_hub σ;
                       subs := subs σ |} l).
  { split; simpl; [assumption | apply lookup_delete_eq]. }
  destruct (run_gone w ops _ _ l Hg Hrun) as [_ Hnone].
  split; [assumption|]. intros v s Hv Hl.
  eexists. split; [eapply destroy_stale; eassumption | reflexivity].
Qed.

Lemma released_hub_is_never_touched_again_witness :
  inv 32 two_handles /\
  exists σ1,
    @World.step Z nat 32 two_handles (DropHub 0) = Some σ1
    /\ subs σ1 = subs two_handles.
Proof.
  split; [exact two_handles_inv|].
  destruct (@released_hub_is_never_touched_again Z nat 32 two_handles 0%nat _
              two_handles_inv eq_refl) as (σ1 & H1 & H2 & _).
  exists σ1. auto.
Defined.

(** X11.  Destroying the handle that owns registration [i] of a live hub
    ends that registration and nothing else: the handle is gone, every
    other handle and every other hub is unchanged, and any other
    registration, on this hub or another, is live afterwards exactly when it
    was live before. *)
Theorem destroy_ends_one_registration_only {Args Cb : Type}
  (w : Z) (σ : World.t Cb) (v l : nat) (i : Z) (e : CEventSafe.t Cb) :
  inv w σ ->
  owns σ v l i ->
  hubs σ !! l = Some e ->
  exists σ1,
    @World.step Args Cb w σ (Destroy v) = Some σ1
    /\ subs σ1 !! v = None
    /\ (forall v', v' <> v -> subs σ1 !! v' = subs σ !! v')
    /\ (forall l', l' <> l -> hubs σ1 !! l' = hubs σ !! l')
    /\ (forall cb, ~ registered σ1 l i cb)
    /\ (forall l' i' cb, l' <> l \/ i' <> i ->
          (registered σ1 l' i' cb <-> registered σ l' i' cb)).
Proof.
  intros Hinv Hown He.
  destruct (@destroy_owner Args Cb w σ v l i e Hinv Hown He)
    as (σ1 & Hstep & Hhubs & Hsubs & Hdead & _).
  exists σ1. split; [exact Hstep|].
  split; [rewrite Hsubs; apply lookup_delete_eq|].
  split; [intros v' Hne; rewrite Hsubs; now apply lookup_delete_ne|].
  split; [intros l' Hne; rewrite Hhubs; now apply lookup_insert_ne|].
  split.
  - intros cb (e1 & He1 & Hin). destruct Hdead as [_ Hd].
    destruct (Hd e1 He1) as [Hdead _].
    specialize (Hdead _ Hin eq_refl). discriminate.
  - intros l' i' cb Hdiff. unfold registered. rewrite Hhubs.
    destruct (decide (l' = l)) as [->|Hne].
    + rewrite lookup_insert_eq, He.
      destruct Hdiff as [Hl|Hi]; [contradiction|].
      split; intros (e1 & [= <-] & Hin); eexists; (split; [reflexivity|]).
      * eapply live_unsubscribe_inv; eassumption.
      * now apply live_unsubscribe.
    + now rewrite lookup_insert_ne by congruence.
Qed.

Lemma destroy_ends_one_registration_only_witness :
  inv 32 two_handles /\ owns two_handles 0 0 0 /\
  exists σ1,
    @World.step Z nat 32 two_handles (Destroy 0) = Some σ1
    /\ (registered σ1 0 1 (Some 11%nat) <-> registered two_handles 0 1 (Some 11%nat)).
Proof.
  split; [exact two_handles_inv|]. split; [reflexivity|].
  destruct (@destroy_ends_one_registration_only Z nat 32 two_handles 0%nat 0%nat 0 _
              two_handles_inv eq_refl eq_refl) as (σ1 & H1 & _ & _ & _ & _ & H6).
  exists σ1. split; [exact H1|]. apply H6. right. discriminate.
Defined.

(** X12.  The cleanup pass is invisible to callers: a [trigger] leaves the
    hub in a state that a second [trigger] does not change, and the calls
    of the next [trigger] are the ones it would have made without the
    first. *)
Theorem trigger_is_repeatable {Args Cb : Type}
  (a1 a2 : Args) (e : CEventSafe.t Cb) :
  fst (CEventSafe.trigger a2 (fst (CEventSafe.trigger a1 e)))
  = fst (CEventSafe.trigger a1 e)
  /\ snd (CEventSafe.trigger a2 (fst (CEventSafe.trigger a1 e)))
     = snd (CEventSafe.trigger a2 e).
Proof.
  rewrite !trigger_state, !trigger_calls, !trigger_locked_snapshot. split.
  - unfold CEventSafe.cleanup at 1.
    destruct (CEventSafe.needsCleanup_ (CEventSafe.cleanup e)) eqn:En; [|reflexivity].
    unfold CEventSafe.cleanup in En.
    destruct (CEventSafe.needsCleanup_ e) eqn:En'; simpl in En; congruence.
  - f_equal. f_equal. unfold CEventSafe.cleanup.
    destruct (CEventSafe.needsCleanup_ e); [|reflexivity]. simpl.
    apply filter_active_id, remove_inactive_all_active.
Qed.
